(** * aimap: the pin store of [script.js] (class [MapApp])

    A shallow embedding of the map annotation tool.  The class keeps its
    pins in a JavaScript [Map], mirrors them in a sidebar and in a counter
    in the page, and writes them to one [localStorage] slot.  The embedding
    passes the whole application state explicitly: the instance fields, and
    the part of the page and of the browser the methods read or write.

    What the environment decides (the clock, the random draw, the answer to
    a [confirm] prompt, whether the storage accepts a write) is an input of
    each method, gathered in [Env]. *)

From Stdlib Require Import ZArith NArith QArith List Bool Lia.
From Stdlib Require Import Ascii.
From Stdlib Require String Decimal DecimalZ.
Import String.StringSyntax.
From Stdlib Require Import Permutation Sorted.
Import ListNotations.

Local Open Scope Z_scope.
Local Open Scope list_scope.

(** ** JavaScript strings

    A string is its sequence of UTF-16 code units; [length] counts code
    units, as [String.prototype.length] does. *)

Abbreviation jsstring := (list N).

(** An ASCII literal as a JavaScript string. *)
Definition str (s : String.string) : jsstring :=
  map N_of_ascii (String.list_ascii_of_string s).

Delimit Scope string_scope with string.
Arguments str s%_string.

Definition string_dec (a b : jsstring) : {a = b} + {a <> b} :=
  list_eq_dec N.eq_dec a b.

(** ToBoolean on a string: only the empty string is falsy. *)
Definition truthy (s : jsstring) : bool :=
  match s with
  | [] => false
  | _ :: _ => true
  end.

(** WhiteSpace and LineTerminator of ECMAScript, the code units that
    [String.prototype.trim] strips. *)
Definition isWhiteSpace (c : N) : bool :=
  (existsb (N.eqb c)
     [9; 10; 11; 12; 13; 32; 160; 5760; 8232; 8233; 8239; 8287; 12288; 65279]
   || ((8192 <=? c) && (c <=? 8202)))%N.

Fixpoint trimStart (s : jsstring) : jsstring :=
  match s with
  | [] => []
  | c :: s' => if isWhiteSpace c then trimStart s' else s
  end.

Definition trimEnd (s : jsstring) : jsstring := rev (trimStart (rev s)).

Definition trim (s : jsstring) : jsstring := trimEnd (trimStart s).

Fixpoint startsWith (s t : jsstring) {struct t} : bool :=
  match t, s with
  | [], _ => true
  | _ :: _, [] => false
  | c :: t', d :: s' => (c =? d)%N && startsWith s' t'
  end.

(** [s.includes(t)]: [t] occurs in [s] at some position. *)
Fixpoint includes (s t : jsstring) : bool :=
  startsWith s t ||
  match s with
  | [] => false
  | _ :: s' => includes s' t
  end.

(** [s.substring(0, n)]. *)
Definition substring0 (n : nat) (s : jsstring) : jsstring := firstn n s.

(** Number to string for an integer of magnitude below 10^21 (a reading
    of [Date.now()] is one): its decimal digits, behind a minus sign when
    negative. *)
Fixpoint digits (d : Decimal.uint) : jsstring :=
  match d with
  | Decimal.Nil => []
  | Decimal.D0 d => 48%N :: digits d
  | Decimal.D1 d => 49%N :: digits d
  | Decimal.D2 d => 50%N :: digits d
  | Decimal.D3 d => 51%N :: digits d
  | Decimal.D4 d => 52%N :: digits d
  | Decimal.D5 d => 53%N :: digits d
  | Decimal.D6 d => 54%N :: digits d
  | Decimal.D7 d => 55%N :: digits d
  | Decimal.D8 d => 56%N :: digits d
  | Decimal.D9 d => 57%N :: digits d
  end.

Definition Number_toString (z : Z) : jsstring :=
  match Z.to_int z with
  | Decimal.Pos d => digits d
  | Decimal.Neg d => 45%N :: digits d
  end.

(** ** The JavaScript [Map], keyed by strings

    A [Map] iterates in insertion order, and [set] on a key that is
    present keeps the key's place: the map is an association list with at
    most one entry per key. *)

Section JSMap.
Context {V : Type}.

Fixpoint Map_get (k : jsstring) (m : list (jsstring * V)) : option V :=
  match m with
  | [] => None
  | (k', v) :: m' => if string_dec k' k then Some v else Map_get k m'
  end.

Fixpoint Map_set (k : jsstring) (v : V) (m : list (jsstring * V))
  : list (jsstring * V) :=
  match m with
  | [] => [(k, v)]
  | (k', v') :: m' =>
      if string_dec k' k then (k, v) :: m' else (k', v') :: Map_set k v m'
  end.

Definition Map_delete (k : jsstring) (m : list (jsstring * V))
  : list (jsstring * V) :=
  filter (fun kv => if string_dec (fst kv) k then false else true) m.

Definition Map_values (m : list (jsstring * V)) : list V := map snd m.

Definition Map_keys (m : list (jsstring * V)) : list jsstring := map fst m.

Definition Map_size (m : list (jsstring * V)) : nat := length m.

End JSMap.

(** ** [Array.prototype.sort] with a comparator

    The sort is stable (ECMAScript 2019): [a] goes before [b] when the
    comparator is negative on them, after when positive, and elements the
    comparator calls equal keep their order.  Insertion from the right is
    such a sort. *)

Section ArraySort.
Context {A : Type} (compareFn : A -> A -> Z).

Fixpoint sort_insert (x : A) (l : list A) : list A :=
  match l with
  | [] => [x]
  | y :: l' => if compareFn x y <=? 0 then x :: l else y :: sort_insert x l'
  end.

Definition Array_sort (l : list A) : list A := fold_right sort_insert [] l.

End ArraySort.

(** ** Data model *)

(** The fields of a pin that are persisted (lines 208-216).  Coordinates
    are doubles in the source; the program only copies them, so each is
    carried as the rational it denotes.  [createdAt] and [updatedAt] are
    ISO-8601 strings made by [new Date().toISOString()]; each is carried
    as the time value (milliseconds since the epoch) it denotes, which is
    what [new Date(s)] gives back at line 251.  [updatedAt] is [undefined]
    until the pin is saved once. *)
Record PinData := {
  id : jsstring;
  lat : Q;
  lng : Q;
  title : jsstring;
  description : jsstring;
  createdAt : Z;
  updatedAt : option Z
}.

(** A value of [this.pins]: the persisted fields and the Leaflet marker,
    a handle numbered in order of creation. *)
Record Pin := {
  data : PinData;
  marker : nat
}.

(** What the form hands to [validateInput] and [savePin]. *)
Record FormData := {
  form_title : jsstring;
  form_description : jsstring
}.

(** A [.pin-item] element of the sidebar: its [data-pin-id], the text of
    its [h4] and [p], and whether [style.display] shows it.  The text of
    an element is taken to be the string interpolated into it (no markup
    in titles and descriptions).  Line 253 assigns the rows as [innerHTML]
    and lines 278-279 read [textContent] back: the two agree, and every
    row has its [h4] and its [p], on the strings of [plainText] and
    [plainAttribute] below; on other strings what the browser builds is
    decided by the HTML parser, which is not modelled, and the statements
    about what a search shows assume [sidebarPlain]. *)
Record Row := {
  row_pinId : jsstring;
  row_h4 : jsstring;
  row_p : jsstring;
  row_display : bool
}.

(** An element of the stored array: [null], or an object with the fields
    [savePinsToStorage] writes, each of its type.  Elements of any other
    kind are outside the model.  The loop of lines 231-233 takes whatever
    [JSON.parse] gives: an object without [id] is kept under the key
    [undefined], coordinates that are no numbers go to [L.marker], whose
    answer is Leaflet's, and a description that is no string fails at
    line 256 after the pin is stored.  The statements about loading speak
    of the arrays of this type only. *)
Inductive Element :=
| ENull
| EPin (pinData : PinData).

(** The slot [mapPins] of [localStorage], by what lines 228-231 make of
    its text.  [JSON.stringify] at line 219 and [JSON.parse] at line 230
    are taken to be inverse on the arrays the program writes. *)
Inductive Stored :=
| NoItem                       (* getItem gives null *)
| EmptyText                    (* the empty string, falsy at line 229 *)
| NotJSON                      (* JSON.parse throws SyntaxError *)
| NotArray                     (* JSON of a value without forEach *)
| PinArray (l : list Element). (* JSON of an array *)

(** The messages of [showNotification], by the call that shows them. *)
Inductive Notice :=
| PinSaved            (* line 161, success *)
| PinDeleted          (* line 175, success *)
| NothingToDelete     (* line 181, info *)
| AllPinsDeleted      (* line 193, success *)
| SaveFailed          (* line 222, error *)
| LoadFailed          (* line 237, error *)
| TitleRequired       (* line 316, error *)
| TitleTooLong        (* line 320, error *)
| DescriptionTooLong. (* line 324, error *)

(** What a method reads from its environment: [Date.now()] at line 31,
    the characters [Math.random().toString(36).substr(2, 9)] yields there,
    the time value of [new Date()] at lines 55 and 151, the answer to the
    [confirm] prompt at lines 168 and 185, and whether
    [localStorage.setItem] accepts the array it is given (it throws, for
    instance, when the quota is exceeded). *)
Record Env := {
  Date_now : Z;
  random_suffix : jsstring;
  new_Date : Z;
  confirm : bool;
  setItem_ok : list PinData -> bool
}.

(** The instance fields ([pins], [currentPinId], [isEditing]) and the
    collaborators' state: the markers on the map, each with the [pinId]
    its handlers of lines 59-69 close over; the number of markers made;
    the storage slot; the rows of [#pinList]; the number shown in
    [#pinCount]; the [show] class of the two modals; the notifications
    shown so far, latest first.  The contents of the popups
    ([createPopupContent], [bindPopup]) and of the two modals are display
    only: no method reads them, and they are left out. *)
Record App := {
  pins : list (jsstring * Pin);
  currentPinId : option jsstring;
  isEditing : bool;
  layers : list (nat * jsstring);
  markersMade : nat;
  localStorage : Stored;
  pinList : list Row;
  pinCount : nat;
  commentModal : bool;
  pinInfoModal : bool;
  notifications : list Notice
}.

Definition set_pins (v : list (jsstring * Pin)) (st : App) : App :=
  {| pins := v; currentPinId := currentPinId st; isEditing := isEditing st;
     layers := layers st; markersMade := markersMade st;
     localStorage := localStorage st; pinList := pinList st;
     pinCount := pinCount st; commentModal := commentModal st;
     pinInfoModal := pinInfoModal st; notifications := notifications st |}.

Definition set_currentPinId (v : option jsstring) (st : App) : App :=
  {| pins := pins st; currentPinId := v; isEditing := isEditing st;
     layers := layers st; markersMade := markersMade st;
     localStorage := localStorage st; pinList := pinList st;
     pinCount := pinCount st; commentModal := commentModal st;
     pinInfoModal := pinInfoModal st; notifications := notifications st |}.

Definition set_isEditing (v : bool) (st : App) : App :=
  {| pins := pins st; currentPinId := currentPinId st; isEditing := v;
     layers := layers st; markersMade := markersMade st;
     localStorage := localStorage st; pinList := pinList st;
     pinCount := pinCount st; commentModal := commentModal st;
     pinInfoModal := pinInfoModal st; notifications := notifications st |}.

Definition set_layers (v : list (nat * jsstring)) (n : nat) (st : App) : App :=
  {| pins := pins st; currentPinId := currentPinId st;
     isEditing := isEditing st; layers := v; markersMade := n;
     localStorage := localStorage st; pinList := pinList st;
     pinCount := pinCount st; commentModal := commentModal st;
     pinInfoModal := pinInfoModal st; notifications := notifications st |}.

Definition set_localStorage (v : Stored) (st : App) : App :=
  {| pins := pins st; currentPinId := currentPinId st;
     isEditing := isEditing st; layers := layers st;
     markersMade := markersMade st; localStorage := v;
     pinList := pinList st; pinCount := pinCount st;
     commentModal := commentModal st; pinInfoModal := pinInfoModal st;
     notifications := notifications st |}.

Definition set_pinList (v : list Row) (st : App) : App :=
  {| pins := pins st; currentPinId := currentPinId st;
     isEditing := isEditing st; layers := layers st;
     markersMade := markersMade st; localStorage := localStorage st;
     pinList := v; pinCount := pinCount st;
     commentModal := commentModal st; pinInfoModal := pinInfoModal st;
     notifications := notifications st |}.

Definition set_pinCount (v : nat) (st : App) : App :=
  {| pins := pins st; currentPinId := currentPinId st;
     isEditing := isEditing st; layers := layers st;
     markersMade := markersMade st; localStorage := localStorage st;
     pinList := pinList st; pinCount := v;
     commentModal := commentModal st; pinInfoModal := pinInfoModal st;
     notifications := notifications st |}.

Definition set_commentModal (v : bool) (st : App) : App :=
  {| pins := pins st; currentPinId := currentPinId st;
     isEditing := isEditing st; layers := layers st;
     markersMade := markersMade st; localStorage := localStorage st;
     pinList := pinList st; pinCount := pinCount st;
     commentModal := v; pinInfoModal := pinInfoModal st;
     notifications := notifications st |}.

Definition set_pinInfoModal (v : bool) (st : App) : App :=
  {| pins := pins st; currentPinId := currentPinId st;
     isEditing := isEditing st; layers := layers st;
     markersMade := markersMade st; localStorage := localStorage st;
     pinList := pinList st; pinCount := pinCount st;
     commentModal := commentModal st; pinInfoModal := v;
     notifications := notifications st |}.

(** [showNotification] (lines 330-338); the timer that hides the message
    again changes nothing the methods read. *)
Definition showNotification (message : Notice) (st : App) : App :=
  {| pins := pins st; currentPinId := currentPinId st;
     isEditing := isEditing st; layers := layers st;
     markersMade := markersMade st; localStorage := localStorage st;
     pinList := pinList st; pinCount := pinCount st;
     commentModal := commentModal st; pinInfoModal := pinInfoModal st;
     notifications := message :: notifications st |}.

(** [this.currentPinId] where it is truthy: neither [null] nor empty. *)
Definition current (st : App) : option jsstring :=
  match currentPinId st with
  | Some (c :: s) => Some (c :: s)
  | _ => None
  end.

(** ** The methods of [MapApp] *)

(** Lines 30-32. *)
Definition generateUniqueId (e : Env) : jsstring :=
  str "pin_" ++ Number_toString (Date_now e) ++ str "_" ++ random_suffix e.

(** [L.marker([lat, lng]).addTo(this.map)] at line 37, with the handlers
    lines 59-69 hang on the marker. *)
Definition L_marker_addTo (pinId : jsstring) (st : App) : nat * App :=
  let m := markersMade st in
  (m, set_layers (layers st ++ [(m, pinId)]) (S m) st).

(** [this.map.removeLayer(marker)]. *)
Definition removeLayer (m : nat) (st : App) : App :=
  set_layers (filter (fun l => negb (Nat.eqb (fst l) m)) (layers st))
    (markersMade st) st.

(** The array of lines 208-216: every pin of the map, in the map's
    order, without its marker. *)
Definition storedArray (st : App) : list PinData :=
  map data (Map_values (pins st)).

(** Lines 207-224. *)
Definition savePinsToStorage (e : Env) (st : App) : App :=
  let pinsArray := storedArray st in
  if setItem_ok e pinsArray
  then set_localStorage (PinArray (map EPin pinsArray)) st
  else showNotification SaveFailed st.

(** The comparator of line 251. *)
Definition compareCreatedAt (a b : Pin) : Z :=
  createdAt (data b) - createdAt (data a).

(** The test [pin => pin.title] of lines 250 and 296: a pin counts as
    confirmed when its title is not empty. *)
Definition confirmed (pin : Pin) : bool := truthy (title (data pin)).

(** The array of lines 249-251: the pins to list, in the order listed. *)
Definition pinsArray (st : App) : list Pin :=
  Array_sort compareCreatedAt (filter confirmed (Map_values (pins st))).

(** The placeholder of line 256, four code units. *)
Definition noDescription : jsstring := [35500; 26126; 12394; 12375]%N.

(** The string interpolated into a row's [p] (line 256). *)
Definition renderDescription (d : jsstring) : jsstring :=
  if truthy d
  then substring0 50 d ++ (if (50 <? length d)%nat then str "..." else [])
  else noDescription.

(** The row of lines 253-258, read as [Row] reads it. *)
Definition renderRow (pin : Pin) : Row :=
  {| row_pinId := id (data pin);
     row_h4 := title (data pin);
     row_p := renderDescription (description (data pin));
     row_display := true |}.

(** Lines 241-271.  The message shown for an empty store is no
    [.pin-item]. *)
Definition updateSidebar (st : App) : App :=
  if (Map_size (pins st) =? 0)%nat
  then set_pinList [] st
  else set_pinList (map renderRow (pinsArray st)) st.

(** Lines 295-298. *)
Definition updatePinCount (st : App) : App :=
  let count := length (filter confirmed (Map_values (pins st))) in
  set_pinCount count st.

(** Lines 135-139. *)
Definition hidePinInfoModal (st : App) : App :=
  set_currentPinId None (set_pinInfoModal false st).

(** Lines 164-177. *)
Definition deletePin (e : Env) (pinId : jsstring) (st : App) : App :=
  match Map_get pinId (pins st) with
  | None => st
  | Some pinData =>
      if confirm e then
        let st := removeLayer (marker pinData) st in
        let st := set_pins (Map_delete pinId (pins st)) st in
        let st := savePinsToStorage e st in
        let st := updateSidebar st in
        let st := updatePinCount st in
        let st := hidePinInfoModal st in
        showNotification PinDeleted st
      else st
  end.

(** Lines 82-102; the form fields it fills are read back only through the
    submit event. *)
Definition showCommentModal (editData : option Pin) (st : App) : App :=
  let st :=
    set_isEditing (match editData with Some _ => true | None => false end) st
  in
  set_commentModal true st.

(** Lines 104-117. *)
Definition hideCommentModal (e : Env) (st : App) : App :=
  let st := set_commentModal false st in
  let st :=
    match isEditing st, current st with
    | false, Some cur =>
        match Map_get cur (pins st) with
        | Some pinData =>
            if truthy (title (data pinData)) then st else deletePin e cur st
        | None => st
        end
    | _, _ => st
    end in
  let st := set_currentPinId None st in
  set_isEditing false st.

(** Lines 119-133. *)
Definition showPinInfo (pinData : Pin) (st : App) : App :=
  let st := set_currentPinId (Some (id (data pinData))) st in
  set_pinInfoModal true st.

(** Lines 34-70.  [data] is given when the pin comes from the storage. *)
Definition addPin (e : Env) (lat0 lng0 : Q) (data0 : option PinData)
    (st : App) : App :=
  let pinId :=
    match data0 with
    | Some d => id d
    | None => generateUniqueId e
    end in
  let (marker0, st) := L_marker_addTo pinId st in
  match data0 with
  | Some d =>
      let st :=
        set_pins (Map_set pinId {| data := d; marker := marker0 |} (pins st))
          st in
      let st := updateSidebar st in
      updatePinCount st
  | None =>
      let st := set_currentPinId (Some pinId) st in
      let st := showCommentModal None st in
      set_pins
        (Map_set pinId
           {| data := {| id := pinId; lat := lat0; lng := lng0;
                         title := []; description := [];
                         createdAt := new_Date e; updatedAt := None |};
              marker := marker0 |}
           (pins st))
        st
  end.

(** The object of lines 147-152: [pinData] spread, then [title],
    [description] and [updatedAt]. *)
Definition updatedData (e : Env) (formData : FormData) (pinData : Pin) : Pin :=
  {| data := {| id := id (data pinData);
                lat := lat (data pinData);
                lng := lng (data pinData);
                title := form_title formData;
                description := form_description formData;
                createdAt := createdAt (data pinData);
                updatedAt := Some (new_Date e) |};
     marker := marker pinData |}.

(** Lines 141-162. *)
Definition savePin (e : Env) (formData : FormData) (st : App) : App :=
  match current st with
  | None => st
  | Some cur =>
      match Map_get cur (pins st) with
      | None => st
      | Some pinData =>
          let updatedData := updatedData e formData pinData in
          let st := set_pins (Map_set cur updatedData (pins st)) st in
          let st := savePinsToStorage e st in
          let st := updateSidebar st in
          let st := hideCommentModal e st in
          showNotification PinSaved st
      end
  end.

(** Lines 179-195. *)
Definition clearAllPins (e : Env) (st : App) : App :=
  if (Map_size (pins st) =? 0)%nat then showNotification NothingToDelete st
  else if confirm e then
    let st :=
      fold_left (fun st pinData => removeLayer (marker pinData) st)
        (Map_values (pins st)) st in
    let st := set_pins [] st in
    let st := savePinsToStorage e st in
    let st := updateSidebar st in
    let st := updatePinCount st in
    showNotification AllPinsDeleted st
  else st.

(** Lines 197-205. *)
Definition editPin (st : App) : App :=
  match current st with
  | None => st
  | Some cur =>
      match Map_get cur (pins st) with
      | None => st
      | Some pinData =>
          let st := hidePinInfoModal st in
          showCommentModal (Some pinData) st
      end
  end.

(** How a block of statements ends: normally, or by an exception thrown
    in the state reached so far. *)
Inductive Completion :=
| Normal (st : App)
| Throw (st : App).

(** The [forEach] of lines 231-233.  Reading [lat] of [null] throws a
    TypeError, which ends the loop. *)
Fixpoint forEach_addPin (e : Env) (l : list Element) (st : App)
  : Completion :=
  match l with
  | [] => Normal st
  | ENull :: _ => Throw st
  | EPin pinData :: l' =>
      forEach_addPin e l' (addPin e (lat pinData) (lng pinData)
                             (Some pinData) st)
  end.

(** Lines 226-239: the [try] block, then the [catch]. *)
Definition loadPinsFromStorage (e : Env) (st : App) : App :=
  let attempt :=
    match localStorage st with
    | NoItem | EmptyText => Normal st
    | NotJSON => Throw st
    | NotArray => Throw st
    | PinArray l => forEach_addPin e l st
    end in
  match attempt with
  | Normal st' => st'
  | Throw st' => showNotification LoadFailed st'
  end.

(** Lines 314-328: the verdict, and the state with the message shown. *)
Definition validateInput (formData : FormData) (st : App) : bool * App :=
  if negb (truthy (trim (form_title formData)))
  then (false, showNotification TitleRequired st)
  else if (50 <? length (form_title formData))%nat
  then (false, showNotification TitleTooLong st)
  else if (200 <? length (form_description formData))%nat
  then (false, showNotification DescriptionTooLong st)
  else (true, st).

(** The state the constructor leaves (lines 2-6) in a page whose storage
    slot is [slot] and whose [#pinList] has no row yet, and [init] (lines
    11-16); [initMap] and [bindEvents] are in [L_marker_addTo] and
    [dispatch]. *)
Definition constructed (slot : Stored) : App :=
  {| pins := []; currentPinId := None; isEditing := false;
     layers := []; markersMade := 0%nat; localStorage := slot;
     pinList := []; pinCount := 0%nat; commentModal := false;
     pinInfoModal := false; notifications := [] |}.

Definition init (e : Env) (st : App) : App :=
  updatePinCount (loadPinsFromStorage e st).

Definition new_MapApp (e : Env) (slot : Stored) : App :=
  init e (constructed slot).

(** ** Search and the event handlers

    [String.prototype.toLowerCase] follows the Unicode case tables; what
    is proved below holds for every function in its place. *)

Section Handlers.
Variable toLowerCase : jsstring -> jsstring.

Definition set_display (v : bool) (item : Row) : Row :=
  {| row_pinId := row_pinId item; row_h4 := row_h4 item;
     row_p := row_p item; row_display := v |}.

(** Lines 273-293; [value] is the text of the search box. *)
Definition searchPins (value : jsstring) (st : App) : App :=
  let searchTerm := trim (toLowerCase value) in
  let pinItems :=
    map (fun item =>
           let title := toLowerCase (row_h4 item) in
           let description := toLowerCase (row_p item) in
           set_display
             (includes title searchTerm || includes description searchTerm)
             item)
        (pinList st) in
  let pinItems :=
    if string_dec searchTerm [] then map (set_display true) pinItems
    else pinItems in
  set_pinList pinItems st.

Inductive Modal := CommentModal | PinInfoModal.

(** The gestures [initMap], [addPin] and [bindEvents] listen to.  The
    search button and the Enter key run [searchPins] as typing does.  A
    click on a row of the sidebar (line 262) pans the map and opens a
    popup; it writes nothing of the state and is left out. *)
Inductive Event :=
| MapClick (lat0 lng0 : Q)                    (* line 25 *)
| MarkerClick (m : nat)                       (* line 59 *)
| MarkerContextMenu (m : nat)                 (* line 66 *)
| FormSubmit (pinTitle pinDescription : jsstring) (* line 361 *)
| CancelClick                                 (* line 373 *)
| ClearAllClick                               (* line 377 *)
| SearchInput (value : jsstring)              (* lines 381-393 *)
| EditPinClick                                (* line 395 *)
| DeletePinClick                              (* line 399 *)
| CloseInfoClick                              (* line 405 *)
| CloseIconClick (modal : Modal)              (* line 415 *)
| EscapeKey                                   (* line 429 *)
| BackdropClick (modal : Modal).              (* line 442 *)

(** The [pinId] the handlers of marker [m] close over, if [m] is on the
    map. *)
Fixpoint handlerPinId (m : nat) (l : list (nat * jsstring))
  : option jsstring :=
  match l with
  | [] => None
  | (m', pinId) :: l' => if Nat.eqb m' m then Some pinId else handlerPinId m l'
  end.

(** One event, handled to completion.  An exception thrown in a handler
    (line 61 reads [title] of [undefined] when the pin is gone) ends the
    handler and leaves the state as it is. *)
Definition dispatch (e : Env) (ev : Event) (st : App) : App :=
  match ev with
  | MapClick lat0 lng0 => addPin e lat0 lng0 None st
  | MarkerClick m =>
      match handlerPinId m (layers st) with
      | None => st
      | Some pinId =>
          match Map_get pinId (pins st) with
          | None => st
          | Some pinData =>
              if truthy (title (data pinData)) then showPinInfo pinData st
              else st
          end
      end
  | MarkerContextMenu m =>
      match handlerPinId m (layers st) with
      | None => st
      | Some pinId => deletePin e pinId st
      end
  | FormSubmit pinTitle pinDescription =>
      let formData :=
        {| form_title := trim pinTitle;
           form_description := trim pinDescription |} in
      let (valid, st) := validateInput formData st in
      if valid then savePin e formData st else st
  | CancelClick => hideCommentModal e st
  | ClearAllClick => clearAllPins e st
  | SearchInput value => searchPins value st
  | EditPinClick => editPin st
  | DeletePinClick =>
      match current st with
      | Some cur => deletePin e cur st
      | None => st
      end
  | CloseInfoClick => hidePinInfoModal st
  | CloseIconClick CommentModal => hideCommentModal e st
  | CloseIconClick PinInfoModal => hidePinInfoModal st
  | EscapeKey =>
      if commentModal st then hideCommentModal e st
      else if pinInfoModal st then hidePinInfoModal st
      else st
  | BackdropClick CommentModal => hideCommentModal e st
  | BackdropClick PinInfoModal => hidePinInfoModal st
  end.

(** A session: the events in order, each with what its handler reads
    from the environment. *)
Definition run (session : list (Env * Event)) (st : App) : App :=
  fold_left (fun st x => dispatch (fst x) (snd x) st) session st.

End Handlers.

(** Lower case on Basic Latin, where [toLowerCase] moves [A]-[Z] to
    [a]-[z] and nothing else.  It stands for [toLowerCase] in the worked
    examples, whose strings are ASCII. *)
Definition asciiLower (s : jsstring) : jsstring :=
  map (fun c => if ((65 <=? c) && (c <=? 90))%N then (c + 32)%N else c) s.

(** ** Vocabulary of the statements *)

(** The pins created at time [t]. *)
Definition createdAtIs (t : Z) (pin : Pin) : bool := createdAt (data pin) =? t.

(** An environment that reads [t] on the clock and [suffix] from the
    random draw, answers [answer] to a prompt, and whose storage accepts
    every write. *)
Definition env (t : Z) (suffix : jsstring) (answer : bool) : Env :=
  {| Date_now := t; random_suffix := suffix; new_Date := t;
     confirm := answer; setItem_ok := fun _ => true |}.

(** Sample data of the worked examples. *)
Definition cafe : PinData :=
  {| id := str "pin_1700000000000_k3j9x0q1z"; lat := 35; lng := 139;
     title := str "Cafe"; description := [];
     createdAt := 1700000000000; updatedAt := Some 1700000000900 |}.

Definition pinA : PinData :=
  {| id := str "pin_1700000000000_a"; lat := 35; lng := 139;
     title := str "Alpha"; description := [];
     createdAt := 1700000000000; updatedAt := Some 1700000000900 |}.

Definition pinB : PinData :=
  {| id := str "pin_1700000000000_b"; lat := 36; lng := 140;
     title := str "Beta"; description := [];
     createdAt := 1700000000000; updatedAt := Some 1700000000900 |}.

Definition pinC : PinData :=
  {| id := str "pin_1700000005000_c"; lat := 37; lng := 141;
     title := str "Gamma"; description := [];
     createdAt := 1700000005000; updatedAt := Some 1700000005900 |}.

Definition blankForm : FormData :=
  {| form_title := str " "; form_description := [] |}.

Definition cafeForm : FormData :=
  {| form_title := str "Cafe"; form_description := [] |}.

Definition barForm : FormData :=
  {| form_title := str "Bar"; form_description := str "open late" |}.

(** The application opened on an empty storage, after one click on the
    map at (35, 139): a draft is in the store and the form is open. *)
Definition draftOpen : App :=
  addPin (env 1700000000000 (str "k3j9x0q1z") true) 35 139 None
    (new_MapApp (env 1700000000000 [] true) NoItem).

Definition draftId : jsstring :=
  generateUniqueId (env 1700000000000 (str "k3j9x0q1z") true).

Definition draftPin : Pin :=
  {| data := {| id := draftId; lat := 35; lng := 139;
                title := []; description := [];
                createdAt := 1700000000000; updatedAt := None |};
     marker := 0 |}.

(** A session in which a draft outlives its form: the user clicks the
    map, cancels the form, declines the prompt that [deletePin] raises for
    the draft, then places and confirms a second pin. *)
Definition declinedDiscard : list (Env * Event) :=
  [ (env 1700000000000 (str "k3j9x0q1z") true, MapClick 35 139);
    (env 1700000002000 [] false, CancelClick);
    (env 1700000004000 (str "7hq2m5c8d") true, MapClick 36 140);
    (env 1700000009000 [] true, FormSubmit (str "Cafe") []) ].

(** The scenario of the specification: one pin placed and confirmed. *)
Definition placeCafe : list (Env * Event) :=
  [ (env 1700000000000 (str "k3j9x0q1z") true, MapClick 35 139);
    (env 1700000009000 [] true, FormSubmit (str "Cafe") []) ].

(** Two clicks in the same millisecond for which the random draw gives
    the same characters. *)
Definition sameDraw : list (Env * Event) :=
  [ (env 1700000000000 (str "k3j9x0q1z") true, MapClick 35 139);
    (env 1700000000000 (str "k3j9x0q1z") true, MapClick 36 140) ].

(** Whether [searchPins] shows the row of a pin: the trimmed, lower-cased
    search text occurs in the lower-cased title or in the lower-cased
    text of the row's [p]. *)
Definition searchHit (toLowerCase : jsstring -> jsstring) (value : jsstring)
    (pin : Pin) : bool :=
  includes (toLowerCase (title (data pin))) (trim (toLowerCase value)) ||
  includes (toLowerCase (renderDescription (description (data pin))))
    (trim (toLowerCase value)).

(** A pin whose description has the word [needle] after its first fifty
    characters. *)
Definition haystack : PinData :=
  {| id := str "pin_1700000000000_k3j9x0q1z"; lat := 35; lng := 139;
     title := str "Cafe";
     description :=
       str "aaaaaaaaaaaaaaaaaaaaaaaaaaaaaaaaaaaaaaaaaaaaaaaaaa needle";
     createdAt := 1700000000000; updatedAt := Some 1700000000900 |}.

Definition isNull (el : Element) : bool :=
  match el with
  | ENull => true
  | EPin _ => false
  end.

(** The objects of a stored array that stand before its first [null]:
    those the loop of line 231 reaches. *)
Fixpoint beforeNull (l : list Element) : list PinData :=
  match l with
  | EPin pinData :: l' => pinData :: beforeNull l'
  | _ => []
  end.

(** The call of line 232 on an object of the array. *)
Definition addStored (e : Env) (st : App) (pinData : PinData) : App :=
  addPin e (lat pinData) (lng pinData) (Some pinData) st.

(** A store as a [Map] of pins has it: no key twice, and each pin under
    its own identifier. *)
Definition wellKeyed (m : list (jsstring * Pin)) : Prop :=
  NoDup (Map_keys m) /\ Forall (fun kv => id (data (snd kv)) = fst kv) m.

(** What a handler other than the map click can do to the store: leave
    it, put the form's values into a pin that is there, delete a key, or
    clear the map. *)
Inductive storeStep (e : Env) (m : list (jsstring * Pin))
  : list (jsstring * Pin) -> Prop :=
| store_kept : storeStep e m m
| store_saved cur pinData formData :
    Map_get cur m = Some pinData ->
    storeStep e m (Map_set cur (updatedData e formData pinData) m)
| store_deleted pinId : storeStep e m (Map_delete pinId m)
| store_cleared : storeStep e m [].

(** The states of a running application: the one [new MapApp()] leaves,
    and those the handlers lead to. *)
Inductive reachable (toLowerCase : jsstring -> jsstring) : App -> Prop :=
| reachable_new e slot : reachable toLowerCase (new_MapApp e slot)
| reachable_dispatch e ev st :
    reachable toLowerCase st ->
    reachable toLowerCase (dispatch toLowerCase e ev st).

(** The states of an application in which no click on the map generated
    an identifier that was already in the store. *)
Inductive reachableFresh (toLowerCase : jsstring -> jsstring) : App -> Prop :=
| fresh_new e slot : reachableFresh toLowerCase (new_MapApp e slot)
| fresh_dispatch e ev st :
    reachableFresh toLowerCase st ->
    (forall lat0 lng0,
       ev = MapClick lat0 lng0 ->
       Map_get (generateUniqueId e) (pins st) = None) ->
    reachableFresh toLowerCase (dispatch toLowerCase e ev st).

(** The markers on the map are numbered below [markersMade], no marker
    is on the map twice, and the marker of each pin of the store is on the
    map with handlers that close over the pin's key. *)
Definition markersTracked (st : App) : Prop :=
  Forall (fun l => (fst l < markersMade st)%nat) (layers st) /\
  NoDup (map fst (layers st)) /\
  Forall (fun kv => In (marker (snd kv), fst kv) (layers st)) (pins st).

(** The sidebar shows the rows of [pinsArray], some of them hidden by a
    search. *)
Definition sidebarSynced (st : App) : Prop :=
  map (set_display true) (pinList st) = map renderRow (pinsArray st).

(** The object of lines 48-56, with the marker of line 37. *)
Definition newDraft (e : Env) (lat0 lng0 : Q) (m : nat) : Pin :=
  {| data := {| id := generateUniqueId e; lat := lat0; lng := lng0;
                title := []; description := [];
                createdAt := new_Date e; updatedAt := None |};
     marker := m |}.

(** The strings that are the text of the element they are interpolated
    into: the HTML parser reads [<] as the start of a tag and [&] as the
    start of a character reference, drops U+0000 and turns a carriage
    return into a line feed; every other code unit is text. *)
Definition plainText (s : jsstring) : bool :=
  forallb (fun c => negb ((c =? 0) || (c =? 13) || (c =? 38) || (c =? 60))%N)
    s.

(** The strings that are the value of the double-quoted attribute they
    are interpolated into (line 254): there the quote ends the value, [&]
    starts a character reference, and U+0000 and the carriage return are
    replaced. *)
Definition plainAttribute (s : jsstring) : bool :=
  forallb (fun c => negb ((c =? 0) || (c =? 13) || (c =? 34) || (c =? 38))%N)
    s.

Definition plainPin (pin : Pin) : bool :=
  plainAttribute (id (data pin)) && plainText (title (data pin)) &&
  plainText (description (data pin)).

(** The pins the sidebar lists have no markup in the strings line 253
    interpolates: the rows of the page are then the rows of [renderRow]. *)
Definition sidebarPlain (st : App) : bool :=
  forallb plainPin (filter confirmed (Map_values (pins st))).

(** A row whose strings have no markup: the element line 253 builds for
    it has them as its [data-pin-id] and as the texts of its [h4] and
    [p]. *)
Definition plainRow (item : Row) : bool :=
  plainAttribute (row_pinId item) && plainText (row_h4 item) &&
  plainText (row_p item).

(** Two pins placed and confirmed in turn, "Alpha" before "Gamma". *)
Definition placeTwo : list (Env * Event) :=
  [ (env 1700000000000 (str "k3j9x0q1z") true, MapClick 35 139);
    (env 1700000001000 [] true, FormSubmit (str "Alpha") []);
    (env 1700000004000 (str "7hq2m5c8d") true, MapClick 37 141);
    (env 1700000005000 [] true, FormSubmit (str "Gamma") []) ].

(** Whether an object of a stored array has the identifier [k]. *)
Definition hasId (k : jsstring) (d : PinData) : bool :=
  if string_dec (id d) k then true else false.

(** An environment like [env] whose storage refuses every write. *)
Definition envFull (t : Z) (answer : bool) : Env :=
  {| Date_now := t; random_suffix := []; new_Date := t;
     confirm := answer; setItem_ok := fun _ => false |}.

(** The application opened on a storage that holds [cafe], after a click
    on the marker of that pin: the information modal is open on it. *)
Definition cafeInfoOpen : App :=
  dispatch asciiLower (env 1700000100000 [] true) (MarkerClick 0)
    (new_MapApp (env 1700000100000 [] true) (PinArray [EPin cafe])).

(** * Properties *)

(** ** Strings *)

Lemma startsWith_spec (s t : jsstring) :
  startsWith s t = true <-> exists post, s = t ++ post.
Proof.
  revert s; induction t as [|c t IH]; intros s; simpl.
  - split; [intros _; now exists s | reflexivity].
  - destruct s as [|d s]; simpl.
    + split; [discriminate | intros [post H]; discriminate].
    + rewrite andb_true_iff, N.eqb_eq, IH. split.
      * intros [-> [post ->]]. now exists post.
      * intros [post H]. inversion H; subst. split; [reflexivity|now exists post].
Qed.

Lemma includes_spec (s t : jsstring) :
  includes s t = true <-> exists pre post, s = pre ++ t ++ post.
Proof.
  induction s as [|d s IH].
  - simpl. rewrite orb_false_r, startsWith_spec. split.
    + intros [post H]. now exists [], post.
    + intros [pre [post H]]. destruct pre; [now exists post|discriminate].
  - cbn [includes]. rewrite orb_true_iff, startsWith_spec, IH. split.
    + intros [[post H] | [pre [post H]]].
      * now exists [], post.
      * exists (d :: pre), post. now rewrite H.
    + intros [pre [post H]]. destruct pre as [|d' pre].
      * left. now exists post.
      * right. inversion H; subst. now exists pre, post.
Qed.

Lemma includes_empty (s : jsstring) : includes s [] = true.
Proof. destruct s; reflexivity. Qed.

Lemma truthy_false (s : jsstring) : truthy s = false <-> s = [].
Proof. destruct s; cbn; split; congruence. Qed.

Lemma trim_nonempty (s : jsstring) : truthy (trim s) = true -> truthy s = true.
Proof. destruct s; [discriminate|reflexivity]. Qed.

(** [trimStart] drops a run of white space and leaves a string that does
    not start with any. *)
Lemma trimStart_split (s : jsstring) :
  exists w, s = w ++ trimStart s /\ forallb isWhiteSpace w = true.
Proof.
  induction s as [|c s [w [E W]]]; [now exists []|].
  cbn [trimStart]. destruct (isWhiteSpace c) eqn:C.
  - exists (c :: w). cbn [forallb app]. rewrite C, W. now rewrite <- E.
  - now exists [].
Qed.

Lemma trimStart_fixed (s : jsstring) :
  trimStart s = s <->
  match s with [] => True | c :: _ => isWhiteSpace c = false end.
Proof.
  destruct s as [|c s]; [tauto|]. cbn [trimStart].
  destruct (isWhiteSpace c) eqn:C.
  - split; [|discriminate]. intros H.
    destruct (trimStart_split s) as [w [E _]].
    apply (f_equal (@length N)) in H. apply (f_equal (@length N)) in E.
    rewrite length_app in E. cbn [length] in H. lia.
  - tauto.
Qed.

Lemma trimStart_trimStart (s : jsstring) : trimStart (trimStart s) = trimStart s.
Proof.
  induction s as [|c s IH]; [reflexivity|]. cbn [trimStart].
  destruct (isWhiteSpace c) eqn:C; [exact IH|].
  cbn [trimStart]. now rewrite C.
Qed.

Lemma trimEnd_trimEnd (s : jsstring) : trimEnd (trimEnd s) = trimEnd s.
Proof. unfold trimEnd. now rewrite rev_involutive, trimStart_trimStart. Qed.

(** Trimming the end keeps the start. *)
Lemma trimStart_trimEnd (s : jsstring) :
  trimStart s = s -> trimStart (trimEnd s) = trimEnd s.
Proof.
  intros H. apply trimStart_fixed in H. apply trimStart_fixed.
  destruct (trimStart_split (rev s)) as [w [E _]].
  apply (f_equal (@rev N)) in E. rewrite rev_involutive, rev_app_distr in E.
  fold (trimEnd s) in E.
  destruct (trimEnd s) as [|c t]; [exact I|].
  rewrite E in H. exact H.
Qed.

(** [trim] is idempotent: the form's fields, trimmed at lines 364-365,
    are not changed by the [trim] of line 315. *)
Lemma trim_trim (s : jsstring) : trim (trim s) = trim s.
Proof.
  unfold trim.
  rewrite (trimStart_trimEnd (trimStart s)) by apply trimStart_trimStart.
  apply trimEnd_trimEnd.
Qed.

Lemma digits_inj (d d' : Decimal.uint) : digits d = digits d' -> d = d'.
Proof.
  revert d'; induction d; intros d' H; destruct d'; simpl in H;
    try discriminate; try reflexivity;
    inversion H as [H']; f_equal; now apply IHd.
Qed.

Lemma Number_toString_inj (a b : Z) :
  Number_toString a = Number_toString b -> a = b.
Proof.
  unfold Number_toString. intros H.
  rewrite <- (DecimalZ.of_to a), <- (DecimalZ.of_to b).
  destruct (Z.to_int a) as [d|d], (Z.to_int b) as [d'|d'].
  - now rewrite (digits_inj _ _ H).
  - destruct d; simpl in H; discriminate.
  - destruct d'; simpl in H; discriminate.
  - inversion H as [H']. now rewrite (digits_inj _ _ H').
Qed.

Lemma digits_no_underscore (d : Decimal.uint) : ~ In 95%N (digits d).
Proof.
  induction d; simpl; intros H; try tauto;
    destruct H as [H|H]; try discriminate; tauto.
Qed.

Lemma Number_toString_no_underscore (z : Z) :
  ~ In 95%N (Number_toString z).
Proof.
  unfold Number_toString. destruct (Z.to_int z); simpl.
  - apply digits_no_underscore.
  - intros [H|H]; [discriminate | now apply digits_no_underscore in H].
Qed.

(** A separator that occurs in neither prefix splits a string in one
    way only. *)
Lemma split_at_separator (c : N) (a a' b b' : jsstring) :
  ~ In c a -> ~ In c a' -> a ++ c :: b = a' ++ c :: b' -> a = a' /\ b = b'.
Proof.
  revert a'; induction a as [|x a IH]; intros a' Ha Ha' H.
  - destruct a' as [|x' a']; simpl in H.
    + inversion H. auto.
    + inversion H; subst. exfalso. apply Ha'. now left.
  - destruct a' as [|x' a']; simpl in H.
    + inversion H; subst. exfalso. apply Ha. now left.
    + inversion H; subst.
      destruct (IH a') as [-> ->]; auto.
      * intros Hin. apply Ha. now right.
      * intros Hin. apply Ha'. now right.
Qed.

(** ** The map *)

Section JSMapFacts.
Context {V : Type}.
Implicit Types (m : list (jsstring * V)) (k : jsstring) (v : V).

Lemma Map_get_set_eq k v m : Map_get k (Map_set k v m) = Some v.
Proof.
  induction m as [|[k' v'] m IH]; simpl.
  - destruct (string_dec k k); congruence.
  - destruct (string_dec k' k) as [E|E]; simpl.
    + destruct (string_dec k k); congruence.
    + destruct (string_dec k' k); congruence.
Qed.

Lemma Map_get_set_ne k k' v m :
  k <> k' -> Map_get k' (Map_set k v m) = Map_get k' m.
Proof.
  intros Hne. induction m as [|[k0 v0] m IH]; simpl.
  - destruct (string_dec k k'); congruence.
  - destruct (string_dec k0 k) as [E|E]; simpl.
    + subst. destruct (string_dec k k'); congruence.
    + destruct (string_dec k0 k'); congruence.
Qed.

Lemma Map_get_delete_eq k m : Map_get k (Map_delete k m) = None.
Proof.
  induction m as [|[k' v'] m IH]; simpl; [reflexivity|].
  destruct (string_dec k' k) as [E|E]; simpl; [assumption|].
  destruct (string_dec k' k); congruence.
Qed.

Lemma Map_get_delete_ne k k' m :
  k <> k' -> Map_get k' (Map_delete k m) = Map_get k' m.
Proof.
  intros Hne. induction m as [|[k0 v0] m IH]; simpl; [reflexivity|].
  destruct (string_dec k0 k) as [E|E]; simpl.
  - subst. destruct (string_dec k k'); congruence.
  - destruct (string_dec k0 k'); congruence.
Qed.

Lemma Map_get_delete_Some k k' v m :
  Map_get k' (Map_delete k m) = Some v -> Map_get k' m = Some v.
Proof.
  destruct (string_dec k k') as [->|Hne].
  - now rewrite Map_get_delete_eq.
  - now rewrite Map_get_delete_ne.
Qed.

Lemma Map_get_In k v m : Map_get k m = Some v -> In (k, v) m.
Proof.
  induction m as [|[k' v'] m IH]; simpl; [discriminate|].
  destruct (string_dec k' k) as [E|E].
  - intros H; inversion H; subst. now left.
  - intros H. right. now apply IH.
Qed.

Lemma Map_get_None_keys k m : Map_get k m = None <-> ~ In k (Map_keys m).
Proof.
  induction m as [|[k' v'] m IH]; simpl; [tauto|].
  destruct (string_dec k' k) as [E|E].
  - split; [discriminate | intros H; exfalso; apply H; now left].
  - rewrite IH. tauto.
Qed.

(** [set] on a new key appends; on a key that is present it replaces the
    entry where it stands. *)
Lemma Map_set_fresh k v m : Map_get k m = None -> Map_set k v m = m ++ [(k, v)].
Proof.
  induction m as [|[k' v'] m IH]; simpl; [reflexivity|].
  destruct (string_dec k' k) as [E|E]; [discriminate|].
  intros H. now rewrite (IH H).
Qed.

Lemma Map_keys_set_present k v v' m :
  Map_get k m = Some v' -> Map_keys (Map_set k v m) = Map_keys m.
Proof.
  induction m as [|[k0 v0] m IH]; simpl; [discriminate|].
  destruct (string_dec k0 k) as [E|E]; simpl.
  - now subst.
  - intros H. now rewrite (IH H).
Qed.

Lemma Map_set_nonempty k v m : Map_set k v m <> [].
Proof.
  destruct m as [|[k' v'] m]; cbn; [|destruct (string_dec k' k)];
    discriminate.
Qed.

Lemma In_values_Map_set k v x m :
  In x (Map_values (Map_set k v m)) -> x = v \/ In x (Map_values m).
Proof.
  induction m as [|[k' v'] m IH]; cbn.
  - intros [<-|[]]. now left.
  - destruct (string_dec k' k); cbn.
    + intros [<-|H]; [now left|right; now right].
    + intros [<-|H]; [right; now left|].
      destruct (IH H) as [->|H']; [now left|right; now right].
Qed.

End JSMapFacts.

(** ** The sort *)

Section ArraySortFacts.
Context {A : Type} (compareFn : A -> A -> Z).

Lemma sort_insert_perm (x : A) (l : list A) :
  Permutation (sort_insert compareFn x l) (x :: l).
Proof.
  induction l as [|y l IH]; simpl; [reflexivity|].
  destruct (compareFn x y <=? 0); [reflexivity|].
  rewrite IH. apply perm_swap.
Qed.

Lemma Array_sort_perm (l : list A) : Permutation (Array_sort compareFn l) l.
Proof.
  induction l as [|x l IH]; simpl; [reflexivity|].
  rewrite sort_insert_perm. now constructor.
Qed.

(** Elements of a class the comparator does not separate keep their
    order. *)
Lemma sort_insert_class (P : A -> bool) (x : A) (l : list A) :
  (forall a b, P a = true -> P b = true -> compareFn a b <= 0) ->
  filter P (sort_insert compareFn x l) = filter P (x :: l).
Proof.
  intros HP. induction l as [|y l IH]; [reflexivity|].
  cbn [sort_insert]. destruct (compareFn x y <=? 0) eqn:E; [reflexivity|].
  cbn [filter] in *. rewrite IH.
  destruct (P y) eqn:Py, (P x) eqn:Px; try reflexivity.
  apply Z.leb_gt in E. specialize (HP x y Px Py). lia.
Qed.

Lemma Array_sort_class (P : A -> bool) (l : list A) :
  (forall a b, P a = true -> P b = true -> compareFn a b <= 0) ->
  filter P (Array_sort compareFn l) = filter P l.
Proof.
  intros HP. induction l as [|x l IH]; [reflexivity|].
  cbn [Array_sort fold_right]. fold (Array_sort compareFn l).
  rewrite sort_insert_class by assumption. cbn [filter]. now rewrite IH.
Qed.

Hypothesis compareFn_total : forall a b, 0 < compareFn a b -> compareFn b a <= 0.
Hypothesis compareFn_trans :
  forall a b c, compareFn a b <= 0 -> compareFn b c <= 0 -> compareFn a c <= 0.

Lemma sort_insert_sorted (x : A) (l : list A) :
  StronglySorted (fun a b => compareFn a b <= 0) l ->
  StronglySorted (fun a b => compareFn a b <= 0) (sort_insert compareFn x l).
Proof.
  induction 1 as [|y l Hl IH Hy]; simpl.
  - constructor; constructor.
  - destruct (compareFn x y <=? 0) eqn:E.
    + apply Z.leb_le in E. constructor; [now constructor|].
      constructor; [assumption|].
      eapply Forall_impl; [|exact Hy]. intros a Ha. eauto.
    + apply Z.leb_gt in E. constructor; [assumption|].
      eapply Permutation_Forall; [symmetry; apply sort_insert_perm|].
      constructor; auto.
Qed.

Lemma Array_sort_sorted (l : list A) :
  StronglySorted (fun a b => compareFn a b <= 0) (Array_sort compareFn l).
Proof.
  induction l as [|x l IH]; simpl; [constructor|].
  now apply sort_insert_sorted.
Qed.

End ArraySortFacts.

Lemma StronglySorted_weaken {A : Type} (R R' : A -> A -> Prop) (l : list A) :
  (forall a b, R a b -> R' a b) -> StronglySorted R l -> StronglySorted R' l.
Proof.
  intros HR. induction 1 as [|x l Hl IH Hx]; constructor; [assumption|].
  eapply Forall_impl; [|exact Hx]. auto.
Qed.

(** Sorting and filtering by a key commute with reading the key. *)
Lemma sort_insert_map {A B : Type} (g : A -> B) (cmp : B -> B -> Z) x l :
  map g (sort_insert (fun a b => cmp (g a) (g b)) x l)
  = sort_insert cmp (g x) (map g l).
Proof.
  induction l as [|y l IH]; cbn; [reflexivity|].
  destruct (cmp (g x) (g y) <=? 0); cbn; [reflexivity|]. now rewrite IH.
Qed.

Lemma Array_sort_map {A B : Type} (g : A -> B) (cmp : B -> B -> Z) l :
  map g (Array_sort (fun a b => cmp (g a) (g b)) l)
  = Array_sort cmp (map g l).
Proof.
  unfold Array_sort. induction l as [|x l IH]; [reflexivity|].
  cbn [fold_right map]. rewrite <- IH. apply sort_insert_map.
Qed.

Lemma filter_map {A B : Type} (g : A -> B) (f : B -> bool) l :
  map g (filter (fun a => f (g a)) l) = filter f (map g l).
Proof.
  induction l as [|x l IH]; cbn; [reflexivity|].
  destruct (f (g x)); cbn; now rewrite IH.
Qed.

(** ** Well-keyed maps *)

Lemma wellKeyed_set (m : list (jsstring * Pin)) k v :
  wellKeyed m -> id (data v) = k -> wellKeyed (Map_set k v m).
Proof.
  intros [Hnd Hid] Hv.
  destruct (Map_get k m) as [v'|] eqn:Hget.
  - split.
    + now rewrite (Map_keys_set_present k v v' m Hget).
    + clear Hnd Hget. induction Hid as [|[k0 v0] m H Hm IH]; cbn.
      * constructor; [exact Hv|constructor].
      * destruct (string_dec k0 k); constructor; auto.
  - rewrite (Map_set_fresh k v m Hget). split.
    + unfold Map_keys. rewrite map_app. cbn [map fst].
      apply NoDup_app; [exact Hnd|repeat constructor; intros []|].
      intros x Hx [<-|[]]. now apply Map_get_None_keys in Hget.
    + apply Forall_app. split; [exact Hid|]. constructor; [exact Hv|constructor].
Qed.

Lemma wellKeyed_delete (m : list (jsstring * Pin)) k :
  wellKeyed m -> wellKeyed (Map_delete k m).
Proof.
  intros [Hnd Hid]. unfold Map_delete, Map_keys in *. split.
  - clear Hid. induction m as [|[k0 v0] m IH]; cbn [filter map fst];
      [constructor|].
    inversion Hnd as [|? ? Hk Hm]; subst.
    destruct (string_dec k0 k); [now apply IH|].
    cbn [map fst]. constructor; [|now apply IH].
    intros Hin. apply Hk. apply in_map_iff in Hin as [kv [E Hin]].
    apply filter_In in Hin as [Hin _]. apply in_map_iff. now exists kv.
  - clear Hnd. induction Hid as [|kv m H _ IH]; cbn [filter]; [constructor|].
    destruct (string_dec (fst kv) k); [exact IH|]. now constructor.
Qed.

Lemma wellKeyed_ids (m : list (jsstring * Pin)) :
  Forall (fun kv => id (data (snd kv)) = fst kv) m ->
  map id (map data (Map_values m)) = Map_keys m.
Proof.
  unfold Map_values, Map_keys.
  induction 1 as [|kv m H _ IH]; [reflexivity|].
  cbn [map]. now rewrite H, IH.
Qed.

(** ** What a method leaves as it is

    The views and the notification write fields of their own; [through]
    reads a field across the calls that do not write it. *)

Lemma updateSidebar_rows st :
  updateSidebar st = set_pinList (map renderRow (pinsArray st)) st.
Proof.
  unfold updateSidebar, pinsArray. destruct (pins st) as [|kv m]; reflexivity.
Qed.

Lemma pins_savePinsToStorage e st : pins (savePinsToStorage e st) = pins st.
Proof. unfold savePinsToStorage. now destruct (setItem_ok _ _). Qed.

Lemma current_savePinsToStorage e st :
  current (savePinsToStorage e st) = current st.
Proof. unfold savePinsToStorage. now destruct (setItem_ok _ _). Qed.

Lemma isEditing_savePinsToStorage e st :
  isEditing (savePinsToStorage e st) = isEditing st.
Proof. unfold savePinsToStorage. now destruct (setItem_ok _ _). Qed.

Lemma pinCount_savePinsToStorage e st :
  pinCount (savePinsToStorage e st) = pinCount st.
Proof. unfold savePinsToStorage. now destruct (setItem_ok _ _). Qed.

Lemma localStorage_savePinsToStorage e st :
  localStorage (savePinsToStorage e st) =
  if setItem_ok e (storedArray st) then PinArray (map EPin (storedArray st))
  else localStorage st.
Proof. unfold savePinsToStorage. now destruct (setItem_ok _ _). Qed.

Ltac through field :=
  repeat first
    [ rewrite updateSidebar_rows
    | rewrite pins_savePinsToStorage
    | rewrite current_savePinsToStorage
    | rewrite isEditing_savePinsToStorage
    | rewrite pinCount_savePinsToStorage
    | progress change (field (showNotification ?n ?s)) with (field s)
    | progress change (field (updatePinCount ?s)) with (field s)
    | progress change (field (hidePinInfoModal ?s)) with (field s)
    | progress change (field (removeLayer ?m ?s)) with (field s)
    | progress change (field (set_pins ?v ?s)) with (field s)
    | progress change (field (set_currentPinId ?v ?s)) with (field s)
    | progress change (field (set_isEditing ?v ?s)) with (field s)
    | progress change (field (set_localStorage ?v ?s)) with (field s)
    | progress change (field (set_pinList ?v ?s)) with (field s)
    | progress change (field (set_pinCount ?v ?s)) with (field s)
    | progress change (field (set_commentModal ?v ?s)) with (field s)
    | progress change (field (set_pinInfoModal ?v ?s)) with (field s) ].

Lemma removeLayers_keep {A : Type} (field : App -> A) (l : list Pin) st :
  (forall m s, field (removeLayer m s) = field s) ->
  field (fold_left (fun st pinData => removeLayer (marker pinData) st) l st)
  = field st.
Proof.
  intros H. revert st; induction l as [|x l IH]; intros st; cbn [fold_left];
    [reflexivity|]. now rewrite IH, H.
Qed.

(** ** What each method does to the store *)

Lemma pins_deletePin e pinId st :
  pins (deletePin e pinId st) =
  match Map_get pinId (pins st) with
  | Some _ => if confirm e then Map_delete pinId (pins st) else pins st
  | None => pins st
  end.
Proof.
  unfold deletePin. destruct (Map_get pinId (pins st)); [|reflexivity].
  destruct (confirm e); [|reflexivity].
  cbv zeta. through pins. reflexivity.
Qed.

Lemma pins_hideCommentModal e st :
  pins (hideCommentModal e st) =
  match isEditing st, current st with
  | false, Some cur =>
      match Map_get cur (pins st) with
      | Some pinData =>
          if confirmed pinData then pins st
          else if confirm e then Map_delete cur (pins st) else pins st
      | None => pins st
      end
  | _, _ => pins st
  end.
Proof.
  unfold hideCommentModal, confirmed. cbv zeta. through pins.
  through isEditing. through current.
  destruct (isEditing st); [reflexivity|].
  destruct (current st) as [cur|]; [|reflexivity].
  destruct (Map_get cur (pins st)) as [pinData|] eqn:E; [|reflexivity].
  destruct (truthy (title (data pinData))); [reflexivity|].
  rewrite pins_deletePin. through pins. now rewrite E.
Qed.

Lemma pins_addPin e lat0 lng0 data0 st :
  pins (addPin e lat0 lng0 data0 st) =
  match data0 with
  | Some d => Map_set (id d) {| data := d; marker := markersMade st |} (pins st)
  | None =>
      Map_set (generateUniqueId e)
        {| data := {| id := generateUniqueId e; lat := lat0; lng := lng0;
                      title := []; description := [];
                      createdAt := new_Date e; updatedAt := None |};
           marker := markersMade st |}
        (pins st)
  end.
Proof.
  unfold addPin, L_marker_addTo. destruct data0; cbv zeta; through pins;
    reflexivity.
Qed.

(** With a title that is not empty, [hideCommentModal] at line 160 finds
    nothing to discard, and [savePin] is the sequence of its lines. *)
Lemma savePin_eq e formData st cur pinData :
  current st = Some cur ->
  Map_get cur (pins st) = Some pinData ->
  truthy (form_title formData) = true ->
  savePin e formData st =
  showNotification PinSaved
    (set_isEditing false
       (set_currentPinId None
          (set_commentModal false
             (updateSidebar
                (savePinsToStorage e
                   (set_pins
                      (Map_set cur (updatedData e formData pinData) (pins st))
                      st)))))).
Proof.
  intros Hcur Hget Ht. unfold savePin. rewrite Hcur, Hget. cbv zeta.
  set (st1 := updateSidebar (savePinsToStorage e (set_pins _ st))).
  assert (isEditing st1 = isEditing st) as H1
    by (subst st1; through isEditing; reflexivity).
  assert (current st1 = Some cur) as H2
    by (subst st1; through current; exact Hcur).
  assert (Map_get cur (pins st1) = Some (updatedData e formData pinData)) as H3
    by (subst st1; through pins; apply Map_get_set_eq).
  unfold hideCommentModal. cbv zeta.
  change (isEditing (set_commentModal false st1)) with (isEditing st1).
  change (current (set_commentModal false st1)) with (current st1).
  change (pins (set_commentModal false st1)) with (pins st1).
  rewrite H1, H2, H3. cbn [updatedData data title]. rewrite Ht.
  now destruct (isEditing st).
Qed.

Lemma pins_savePin e formData st cur pinData :
  current st = Some cur ->
  Map_get cur (pins st) = Some pinData ->
  truthy (form_title formData) = true ->
  pins (savePin e formData st)
  = Map_set cur (updatedData e formData pinData) (pins st).
Proof.
  intros Hcur Hget Ht. rewrite (savePin_eq e formData st cur pinData) by assumption.
  through pins. reflexivity.
Qed.

(** ** Validation *)

Lemma validateInput_verdict formData st :
  fst (validateInput formData st) = true <->
  truthy (trim (form_title formData)) = true /\
  (length (form_title formData) <= 50)%nat /\
  (length (form_description formData) <= 200)%nat.
Proof.
  unfold validateInput.
  destruct (truthy (trim (form_title formData))); cbn [negb fst];
    [|split; [discriminate | intros [H _]; discriminate]].
  destruct (50 <? length (form_title formData))%nat eqn:E1; cbn [fst].
  - apply Nat.ltb_lt in E1. split; [discriminate | lia].
  - apply Nat.ltb_ge in E1.
    destruct (200 <? length (form_description formData))%nat eqn:E2;
      cbn [fst].
    + apply Nat.ltb_lt in E2. split; [discriminate | lia].
    + apply Nat.ltb_ge in E2. tauto.
Qed.

Lemma validateInput_refuses formData st :
  fst (validateInput formData st) = false <->
  trim (form_title formData) = [] \/
  (50 < length (form_title formData))%nat \/
  (200 < length (form_description formData))%nat.
Proof.
  pose proof (validateInput_verdict formData st) as V.
  rewrite <- truthy_false.
  destruct (fst (validateInput formData st)).
  - split; [discriminate|]. destruct V as [V _].
    destruct (V eq_refl) as [V1 [V2 V3]]. rewrite V1.
    intros [H|[H|H]]; [discriminate | lia | lia].
  - split; [intros _|reflexivity].
    destruct (truthy (trim (form_title formData))) eqn:T; [|now left].
    right.
    destruct (Nat.le_gt_cases (length (form_title formData)) 50) as [L|L];
      [|now left].
    destruct (Nat.le_gt_cases (length (form_description formData)) 200)
      as [L'|L']; [|now right].
    destruct V as [_ V]. assert (false = true) as X by (apply V; auto).
    discriminate X.
Qed.

Lemma validateInput_title formData st :
  fst (validateInput formData st) = true -> truthy (form_title formData) = true.
Proof.
  intros H. apply validateInput_verdict in H as [H _]. now apply trim_nonempty.
Qed.

Lemma validateInput_state formData st :
  fst (validateInput formData st) = true -> snd (validateInput formData st) = st.
Proof.
  unfold validateInput.
  destruct (negb _); [discriminate|].
  destruct (50 <? _)%nat; [discriminate|].
  destruct (200 <? _)%nat; [discriminate|reflexivity].
Qed.

Lemma pins_validateInput formData st :
  pins (snd (validateInput formData st)) = pins st.
Proof.
  unfold validateInput.
  destruct (negb _); [reflexivity|].
  destruct (50 <? _)%nat; [reflexivity|].
  destruct (200 <? _)%nat; reflexivity.
Qed.

Lemma current_nonempty st cur : current st = Some cur -> truthy cur = true.
Proof.
  unfold current. destruct (currentPinId st) as [[|c s]|]; try discriminate.
  intros H; inversion H; reflexivity.
Qed.

Lemma current_showPinInfo pinData st :
  truthy (id (data pinData)) = true ->
  current (showPinInfo pinData st) = Some (id (data pinData)).
Proof. unfold showPinInfo, current. cbn. now destruct (id (data pinData)). Qed.

(** ** The handlers and the store *)

Lemma deletePin_storeStep e pinId st :
  storeStep e (pins st) (pins (deletePin e pinId st)).
Proof.
  rewrite pins_deletePin.
  destruct (Map_get pinId (pins st)); [|constructor].
  destruct (confirm e); constructor.
Qed.

Lemma hideCommentModal_storeStep e st :
  storeStep e (pins st) (pins (hideCommentModal e st)).
Proof.
  rewrite pins_hideCommentModal.
  destruct (isEditing st); [constructor|].
  destruct (current st) as [cur|]; [|constructor].
  destruct (Map_get cur (pins st)) as [pinData|]; [|constructor].
  destruct (confirmed pinData); [constructor|].
  destruct (confirm e); constructor.
Qed.

Lemma clearAllPins_storeStep e st :
  storeStep e (pins st) (pins (clearAllPins e st)).
Proof.
  unfold clearAllPins.
  destruct (_ =? _)%nat; [constructor|].
  destruct (confirm e); [|constructor]. cbv zeta.
  through pins. constructor.
Qed.

Lemma submit_storeStep e formData st :
  storeStep e (pins st)
    (pins (let (valid, st') := validateInput formData st in
           if valid then savePin e formData st' else st')).
Proof.
  pose proof (validateInput_title formData st) as V.
  pose proof (validateInput_state formData st) as S.
  pose proof (pins_validateInput formData st) as P.
  destruct (validateInput formData st) as [[|] st']; cbn [fst snd] in *.
  - rewrite S by reflexivity. specialize (V eq_refl).
    destruct (current st) as [cur|] eqn:Hcur.
    + destruct (Map_get cur (pins st)) as [pinData|] eqn:Hget.
      * rewrite (pins_savePin e formData st cur pinData) by assumption.
        now constructor.
      * unfold savePin. rewrite Hcur, Hget. constructor.
    + unfold savePin. rewrite Hcur. constructor.
  - rewrite P. constructor.
Qed.

(** A map click puts a new draft under the identifier it generates; every
    other event takes a [storeStep]. *)
Lemma dispatch_storeStep toLowerCase e ev st :
  match ev with
  | MapClick lat0 lng0 =>
      pins (dispatch toLowerCase e ev st) =
      Map_set (generateUniqueId e)
        {| data := {| id := generateUniqueId e; lat := lat0; lng := lng0;
                      title := []; description := [];
                      createdAt := new_Date e; updatedAt := None |};
           marker := markersMade st |}
        (pins st)
  | _ => storeStep e (pins st) (pins (dispatch toLowerCase e ev st))
  end.
Proof.
  destruct ev as [lat0 lng0|m|m|t d| | |v| | | |[|]| |[|]]; cbn [dispatch].
  - apply pins_addPin.
  - destruct (handlerPinId m (layers st)) as [pinId|]; [|constructor].
    destruct (Map_get pinId (pins st)) as [pinData|]; [|constructor].
    destruct (truthy _); constructor.
  - destruct (handlerPinId m (layers st)) as [pinId|]; [|constructor].
    apply deletePin_storeStep.
  - apply submit_storeStep.
  - apply hideCommentModal_storeStep.
  - apply clearAllPins_storeStep.
  - constructor.
  - unfold editPin.
    destruct (current st) as [cur|]; [|constructor].
    destruct (Map_get cur (pins st)); constructor.
  - destruct (current st) as [cur|]; [|constructor].
    apply deletePin_storeStep.
  - constructor.
  - apply hideCommentModal_storeStep.
  - constructor.
  - destruct (commentModal st); [apply hideCommentModal_storeStep|].
    destruct (pinInfoModal st); constructor.
  - apply hideCommentModal_storeStep.
  - constructor.
Qed.

Lemma wellKeyed_storeStep e m m' :
  storeStep e m m' -> wellKeyed m -> wellKeyed m'.
Proof.
  intros S H. destruct S as [|cur pinData formData Hget|k|].
  - exact H.
  - apply wellKeyed_set; [exact H|].
    destruct H as [_ Hid]. rewrite Forall_forall in Hid.
    apply (Hid (cur, pinData)). now apply Map_get_In.
  - now apply wellKeyed_delete.
  - split; constructor.
Qed.

(** ** Loading *)

Lemma forEach_addPin_Normal e l st :
  existsb isNull l = false ->
  forEach_addPin e l st = Normal (fold_left (addStored e) (beforeNull l) st).
Proof.
  revert st; induction l as [|[|d] l IH]; intros st H; cbn in *;
    [reflexivity | discriminate | now apply IH].
Qed.

Lemma forEach_addPin_Throw e l st :
  existsb isNull l = true ->
  forEach_addPin e l st = Throw (fold_left (addStored e) (beforeNull l) st).
Proof.
  revert st; induction l as [|[|d] l IH]; intros st H; cbn in *;
    [discriminate | reflexivity | now apply IH].
Qed.

(** The store [new MapApp()] leaves, for a stored array. *)
Lemma pins_new_MapApp e l :
  pins (new_MapApp e (PinArray l))
  = pins (fold_left (addStored e) (beforeNull l) (constructed (PinArray l))).
Proof.
  unfold new_MapApp, init, loadPinsFromStorage.
  cbn [localStorage constructed].
  destruct (existsb isNull l) eqn:E;
    [rewrite forEach_addPin_Throw by exact E
    |rewrite forEach_addPin_Normal by exact E]; reflexivity.
Qed.

Lemma notifications_addStored e st d :
  notifications (addStored e st d) = notifications st.
Proof.
  unfold addStored, addPin, L_marker_addTo. cbv zeta.
  through notifications. reflexivity.
Qed.

Lemma notifications_load e ds st :
  notifications (fold_left (addStored e) ds st) = notifications st.
Proof.
  revert st; induction ds as [|d ds IH]; intros st; cbn [fold_left];
    [reflexivity|].
  now rewrite IH, notifications_addStored.
Qed.

Lemma pins_load_nonempty e ds st :
  pins st <> [] -> pins (fold_left (addStored e) ds st) <> [].
Proof.
  revert st; induction ds as [|d ds IH]; intros st H; cbn [fold_left];
    [exact H|].
  apply IH. unfold addStored. rewrite pins_addPin. apply Map_set_nonempty.
Qed.

Lemma pins_load_from e ds st :
  Forall (fun pin => In (data pin) (storedArray st ++ ds))
    (Map_values (pins (fold_left (addStored e) ds st))).
Proof.
  revert st; induction ds as [|d ds IH]; intros st; cbn [fold_left].
  - rewrite app_nil_r. unfold storedArray. apply Forall_forall.
    intros pin H. now apply in_map.
  - eapply Forall_impl; [|apply IH]. intros pin H.
    rewrite in_app_iff in H. rewrite in_app_iff. cbn [In].
    destruct H as [H|H]; [|tauto].
    unfold storedArray, addStored in H. rewrite pins_addPin in H.
    apply in_map_iff in H as [pin' [E H]].
    apply In_values_Map_set in H as [->|H].
    + cbn in E. tauto.
    + left. rewrite <- E. unfold storedArray. now apply in_map.
Qed.

(** Objects with distinct identifiers, none of them in the store, are
    appended in their order. *)
Lemma load_appends e ds st :
  NoDup (Map_keys (pins st) ++ map id ds) ->
  storedArray (fold_left (addStored e) ds st) = storedArray st ++ ds.
Proof.
  revert st; induction ds as [|d ds IH]; intros st Hnd; cbn [fold_left map].
  - now rewrite app_nil_r.
  - assert (Map_get (id d) (pins st) = None) as Hfresh.
    { apply Map_get_None_keys. intros Hin.
      apply NoDup_remove_2 in Hnd. apply Hnd, in_or_app. now left. }
    assert (pins (addStored e st d)
            = pins st ++ [(id d, {| data := d; marker := markersMade st |})])
      as Hpins.
    { unfold addStored. rewrite pins_addPin. now apply Map_set_fresh. }
    rewrite IH.
    + unfold storedArray, Map_values. rewrite Hpins, !map_app.
      cbn [map snd data]. now rewrite <- app_assoc.
    + rewrite Hpins. unfold Map_keys. rewrite map_app. cbn [map fst].
      now rewrite <- app_assoc.
Qed.

Lemma wellKeyed_new e slot : wellKeyed (pins (new_MapApp e slot)).
Proof.
  assert (forall ds st, wellKeyed (pins st) ->
                        wellKeyed (pins (fold_left (addStored e) ds st))) as L.
  { induction ds as [|d ds IH]; intros st H; cbn [fold_left]; [exact H|].
    apply IH. unfold addStored. rewrite pins_addPin.
    now apply wellKeyed_set. }
  destruct slot as [| | | |l]; try (split; constructor).
  rewrite pins_new_MapApp. apply L. split; constructor.
Qed.

(** The store of a running application is well keyed. *)
Lemma reachable_wellKeyed toLowerCase st :
  reachable toLowerCase st -> wellKeyed (pins st).
Proof.
  induction 1 as [e slot|e ev st _ IH]; [apply wellKeyed_new|].
  pose proof (dispatch_storeStep toLowerCase e ev st) as S.
  destruct ev;
    try (eapply wellKeyed_storeStep; [exact S|exact IH]).
  rewrite S. now apply wellKeyed_set.
Qed.

(** The listed pins, without their markers, are a function of the stored
    array. *)
Lemma pinsArray_of_storedArray st :
  map data (pinsArray st)
  = Array_sort (fun a b => createdAt b - createdAt a)
      (filter (fun d => truthy (title d)) (storedArray st)).
Proof.
  unfold pinsArray, storedArray.
  rewrite <- (filter_map data (fun d => truthy (title d))).
  apply (Array_sort_map data (fun a b => createdAt b - createdAt a)).
Qed.

(** What [savePinsToStorage] writes from a well-keyed store, a fresh
    [new MapApp()] reads back. *)
Lemma round_trip_wellKeyed (e e' : Env) (st : App) :
  wellKeyed (pins st) ->
  setItem_ok e (storedArray st) = true ->
  storedArray (new_MapApp e' (localStorage (savePinsToStorage e st)))
  = storedArray st.
Proof.
  intros [Hnd Hid] Hok.
  rewrite localStorage_savePinsToStorage, Hok.
  unfold storedArray at 1. rewrite pins_new_MapApp.
  fold (storedArray
          (fold_left (addStored e')
             (beforeNull (map EPin (storedArray st)))
             (constructed (PinArray (map EPin (storedArray st)))))).
  assert (beforeNull (map EPin (storedArray st)) = storedArray st) as ->
    by (clear; induction (storedArray st) as [|d l IH]; cbn;
        [|rewrite IH]; reflexivity).
  rewrite load_appends; [reflexivity|].
  cbn [pins constructed Map_keys map app]. unfold storedArray.
  now rewrite wellKeyed_ids.
Qed.

(** ** C1: confirmation *)

(** A title of one space is neither empty nor too long, and is refused:
    by [validateInput], and by the form, which leaves the draft as it
    is and shows the message of line 316. *)
Lemma validateInput_rejects_blank_title :
  form_title blankForm <> [] /\
  (length (form_title blankForm) <= 50)%nat /\
  (length (form_description blankForm) <= 200)%nat /\
  fst (validateInput blankForm draftOpen) = false /\
  dispatch asciiLower (env 1700000009000 [] true) (FormSubmit (str " ") [])
    draftOpen
  = showNotification TitleRequired draftOpen.
Proof. vm_compute. repeat split; try discriminate; lia. Qed.

(** The form, whose handler trims both fields before it validates them
    (lines 361-371), is refused exactly when the title typed is empty or
    white space only, or the trimmed title is longer than 50, or the
    trimmed description longer than 200. *)
Lemma form_refused_iff (pinTitle pinDescription : jsstring) (st : App) :
  fst (validateInput {| form_title := trim pinTitle;
                        form_description := trim pinDescription |} st) = false
  <->
  trim pinTitle = [] \/
  (50 < length (trim pinTitle))%nat \/
  (200 < length (trim pinDescription))%nat.
Proof.
  rewrite validateInput_refuses. cbn [form_title form_description].
  now rewrite trim_trim.
Qed.

(** C1, as the code has it.  [validateInput] refuses the form exactly when
    the title is empty once trimmed of white space, or longer than 50
    code units, or the description longer than 200.  When it accepts and
    the current pin [cur] is in the store, [savePin] leaves under [cur]
    the pin with the form's title and description and [updatedAt] set to
    the time of the call, whatever title and description the pin had; a
    second confirmation of the pin, selected again, puts its own values in
    their place. *)
Theorem confirm_validates_and_overwrites
    (e e' : Env) (formData formData' : FormData) (st : App)
    (cur : jsstring) (pinData : Pin) :
  current st = Some cur ->
  Map_get cur (pins st) = Some pinData ->
  id (data pinData) = cur ->
  (fst (validateInput formData st) = false <->
   trim (form_title formData) = [] \/
   (50 < length (form_title formData))%nat \/
   (200 < length (form_description formData))%nat) /\
  (fst (validateInput formData st) = true ->
   Map_get cur (pins (savePin e formData st))
   = Some (updatedData e formData pinData) /\
   (fst (validateInput formData' (savePin e formData st)) = true ->
    Map_get cur
      (pins (savePin e' formData'
               (showPinInfo (updatedData e formData pinData)
                  (savePin e formData st))))
    = Some (updatedData e' formData' (updatedData e formData pinData)))).
Proof.
  intros Hcur Hget Hid. split; [apply validateInput_refuses|].
  intros Hv. apply validateInput_title in Hv.
  assert (Map_get cur (pins (savePin e formData st))
          = Some (updatedData e formData pinData)) as Hsaved.
  { rewrite (pins_savePin e formData st cur pinData) by assumption.
    apply Map_get_set_eq. }
  split; [exact Hsaved|].
  intros Hv'. apply validateInput_title in Hv'.
  rewrite (pins_savePin e' formData' _ cur (updatedData e formData pinData)).
  - apply Map_get_set_eq.
  - rewrite current_showPinInfo; cbn [updatedData data id].
    + now rewrite Hid.
    + rewrite Hid. eapply current_nonempty; eassumption.
  - exact Hsaved.
  - exact Hv'.
Qed.

Lemma confirm_validates_and_overwrites_witness :
  current draftOpen = Some draftId /\
  Map_get draftId (pins draftOpen) = Some draftPin /\
  id (data draftPin) = draftId /\
  fst (validateInput cafeForm draftOpen) = true /\
  Map_get draftId (pins (savePin (env 1700000001000 [] true) cafeForm draftOpen))
  = Some (updatedData (env 1700000001000 [] true) cafeForm draftPin) /\
  Map_get draftId
    (pins (savePin (env 1700000005000 [] true) barForm
             (showPinInfo
                (updatedData (env 1700000001000 [] true) cafeForm draftPin)
                (savePin (env 1700000001000 [] true) cafeForm draftOpen))))
  = Some (updatedData (env 1700000005000 [] true) barForm
            (updatedData (env 1700000001000 [] true) cafeForm draftPin)).
Proof.
  assert (current draftOpen = Some draftId) as H1 by (vm_compute; reflexivity).
  assert (Map_get draftId (pins draftOpen) = Some draftPin) as H2
    by (vm_compute; reflexivity).
  assert (id (data draftPin) = draftId) as H3 by reflexivity.
  assert (fst (validateInput cafeForm draftOpen) = true) as H4
    by (vm_compute; reflexivity).
  destruct (confirm_validates_and_overwrites
              (env 1700000001000 [] true) (env 1700000005000 [] true)
              cafeForm barForm draftOpen draftId draftPin H1 H2 H3)
    as [_ K].
  destruct (K H4) as [K1 K2].
  assert (fst (validateInput barForm
                 (savePin (env 1700000001000 [] true) cafeForm draftOpen))
          = true) as H5 by (vm_compute; reflexivity).
  exact (conj H1 (conj H2 (conj H3 (conj H4 (conj K1 (K2 H5)))))).
Defined.

(** ** C2: persistence *)

Lemma localStorage_deletePin e pinId st pinData :
  Map_get pinId (pins st) = Some pinData -> confirm e = true ->
  localStorage (deletePin e pinId st) =
  if setItem_ok e (storedArray (deletePin e pinId st))
  then PinArray (map EPin (storedArray (deletePin e pinId st)))
  else localStorage st.
Proof.
  intros Hget Hc. unfold storedArray at 1 2.
  rewrite pins_deletePin, Hget, Hc.
  unfold deletePin. rewrite Hget, Hc. cbv zeta.
  through localStorage. rewrite localStorage_savePinsToStorage.
  reflexivity.
Qed.

(** The session [declinedDiscard] leaves in the storage the draft of the
    first click, its title still empty, beside the confirmed pin. *)
Lemma draft_is_persisted :
  localStorage
    (run asciiLower declinedDiscard (new_MapApp (env 0 [] true) NoItem))
  = PinArray
      [ EPin {| id := str "pin_1700000000000_k3j9x0q1z";
                lat := 35; lng := 139; title := []; description := [];
                createdAt := 1700000000000; updatedAt := None |};
        EPin {| id := str "pin_1700000004000_7hq2m5c8d";
                lat := 36; lng := 140; title := str "Cafe"; description := [];
                createdAt := 1700000004000;
                updatedAt := Some 1700000009000 |} ].
Proof. vm_compute. reflexivity. Qed.

(** C2, as the code has it.  Creating a draft does not touch the storage.
    A confirmation, an approved deletion and an approved clearing each
    end with the storage written: when the storage accepts the write, the
    slot holds [storedArray] of the state the method leaves, that is
    every pin then in the store, drafts among them; when it refuses, the
    slot keeps what it held. *)
Theorem storage_written_on_confirm_delete_clear (e : Env) (st : App) :
  (forall lat0 lng0,
     localStorage (addPin e lat0 lng0 None st) = localStorage st) /\
  (forall formData cur pinData,
     current st = Some cur -> Map_get cur (pins st) = Some pinData ->
     fst (validateInput formData st) = true ->
     localStorage (savePin e formData st) =
     if setItem_ok e (storedArray (savePin e formData st))
     then PinArray (map EPin (storedArray (savePin e formData st)))
     else localStorage st) /\
  (forall pinId pinData,
     Map_get pinId (pins st) = Some pinData -> confirm e = true ->
     localStorage (deletePin e pinId st) =
     if setItem_ok e (storedArray (deletePin e pinId st))
     then PinArray (map EPin (storedArray (deletePin e pinId st)))
     else localStorage st) /\
  (pins st <> [] -> confirm e = true ->
   storedArray (clearAllPins e st) = [] /\
   localStorage (clearAllPins e st) =
   if setItem_ok e [] then PinArray [] else localStorage st).
Proof.
  split; [|split; [|split]].
  - intros lat0 lng0. reflexivity.
  - intros formData cur pinData Hcur Hget Hv.
    apply validateInput_title in Hv.
    rewrite (savePin_eq e formData st cur pinData) by assumption.
    unfold storedArray. through pins. through localStorage.
    rewrite localStorage_savePinsToStorage. reflexivity.
  - intros pinId pinData. apply localStorage_deletePin.
  - intros Hne Hc. unfold clearAllPins.
    destruct (Map_size (pins st) =? 0)%nat eqn:E.
    { apply Nat.eqb_eq in E. destruct (pins st); [congruence|discriminate]. }
    rewrite Hc. cbv zeta. unfold storedArray. through pins.
    split; [reflexivity|].
    through localStorage. rewrite localStorage_savePinsToStorage.
    unfold storedArray. cbn [pins set_pins Map_values map].
    destruct (setItem_ok e []); [reflexivity|].
    through localStorage. now apply removeLayers_keep.
Qed.

Lemma storage_written_on_confirm_delete_clear_witness :
  current draftOpen = Some draftId /\
  Map_get draftId (pins draftOpen) = Some draftPin /\
  fst (validateInput cafeForm draftOpen) = true /\
  localStorage (savePin (env 1700000009000 [] true) cafeForm draftOpen)
  = PinArray
      [ EPin {| id := draftId; lat := 35; lng := 139;
                title := str "Cafe"; description := [];
                createdAt := 1700000000000;
                updatedAt := Some 1700000009000 |} ].
Proof.
  assert (current draftOpen = Some draftId) as H1 by (vm_compute; reflexivity).
  assert (Map_get draftId (pins draftOpen) = Some draftPin) as H2
    by (vm_compute; reflexivity).
  assert (fst (validateInput cafeForm draftOpen) = true) as H3
    by (vm_compute; reflexivity).
  destruct (storage_written_on_confirm_delete_clear
              (env 1700000009000 [] true) draftOpen) as [_ [K _]].
  refine (conj H1 (conj H2 (conj H3 _))).
  rewrite (K cafeForm draftId draftPin H1 H2 H3).
  vm_compute. reflexivity.
Defined.

(** ** C3: the counter *)



(** C3 at the scenario of the specification: after the pin is placed and
    confirmed as "Cafe" the store holds one confirmed pin and the sidebar
    lists it, while the counter still shows the 0 that [init] wrote. *)
Lemma pinCount_stale_after_confirm :
  length
    (filter confirmed
       (Map_values
          (pins (run asciiLower placeCafe (new_MapApp (env 0 [] true) NoItem)))))
  = 1%nat /\
  map row_h4
    (pinList (run asciiLower placeCafe (new_MapApp (env 0 [] true) NoItem)))
  = [str "Cafe"] /\
  pinCount (run asciiLower placeCafe (new_MapApp (env 0 [] true) NoItem))
  = 0%nat.
Proof. repeat split; vm_compute; reflexivity. Qed.

(** ** C4: the list *)

(** The two orders in which the same two pins, created in the same
    millisecond, can stand in the storage. *)
Lemma pinsArray_ties_follow_insertion :
  createdAt pinA = createdAt pinB /\
  map (fun pin => id (data pin))
    (pinsArray (new_MapApp (env 0 [] true) (PinArray [EPin pinA; EPin pinB])))
  = [id pinA; id pinB] /\
  map (fun pin => id (data pin))
    (pinsArray (new_MapApp (env 0 [] true) (PinArray [EPin pinB; EPin pinA])))
  = [id pinB; id pinA].
Proof. repeat split; vm_compute; reflexivity. Qed.

(** The later pin comes first, and the two pins of the same millisecond
    follow in the order of the storage. *)
Lemma pinsArray_latest_first :
  map (fun pin => title (data pin))
    (pinsArray
       (new_MapApp (env 0 [] true) (PinArray [EPin pinB; EPin pinC; EPin pinA])))
  = [str "Gamma"; str "Beta"; str "Alpha"].
Proof. vm_compute. reflexivity. Qed.

(** C4, as the code has it: [pinsArray], the list the sidebar shows, holds
    exactly the pins of the store with a non-empty title, latest creation
    first; pins created at the same time stand in the order in which
    their keys entered the map (the sort is stable and the comparator
    reads [createdAt] only), not in the order of their identifiers. *)
Theorem pinsArray_confirmed_sorted_stable (st : App) :
  Permutation (pinsArray st) (filter confirmed (Map_values (pins st))) /\
  StronglySorted
    (fun a b => createdAt (data b) <= createdAt (data a)) (pinsArray st) /\
  forall t,
    filter (createdAtIs t) (pinsArray st) =
    filter (createdAtIs t) (filter confirmed (Map_values (pins st))).
Proof.
  unfold pinsArray. split; [|split].
  - apply Array_sort_perm.
  - apply StronglySorted_weaken with (R := fun a b => compareCreatedAt a b <= 0).
    + unfold compareCreatedAt. intros a b H. lia.
    + apply Array_sort_sorted; unfold compareCreatedAt; intros; lia.
  - intros t. apply Array_sort_class.
    unfold createdAtIs, compareCreatedAt. intros a b Ha Hb.
    apply Z.eqb_eq in Ha, Hb. lia.
Qed.

(** ** C5: deletion *)

(** A pin that is in the store stays when the user declines the prompt. *)
Lemma deletePin_declined_keeps_pin :
  Map_get (id cafe) (pins (new_MapApp (env 0 [] true) (PinArray [EPin cafe])))
  = Some {| data := cafe; marker := 0 |} /\
  deletePin (env 0 [] false) (id cafe)
    (new_MapApp (env 0 [] true) (PinArray [EPin cafe]))
  = new_MapApp (env 0 [] true) (PinArray [EPin cafe]).
Proof. split; vm_compute; reflexivity. Qed.

(** C5, as the code has it.  [deletePin] on an identifier that is not in
    the store returns at once: the state, notifications included, is what
    it was, and nothing reports the absence.  On an identifier that is in
    the store it asks the user; declined, it changes nothing; approved, it
    removes the pin, draft or confirmed, and leaves every other pin. *)
Theorem deletePin_absent_declined_approved
    (e : Env) (pinId : jsstring) (st : App) :
  (Map_get pinId (pins st) = None -> deletePin e pinId st = st) /\
  (confirm e = false -> deletePin e pinId st = st) /\
  (forall pinData,
     Map_get pinId (pins st) = Some pinData -> confirm e = true ->
     pins (deletePin e pinId st) = Map_delete pinId (pins st) /\
     Map_get pinId (pins (deletePin e pinId st)) = None /\
     forall k, k <> pinId ->
       Map_get k (pins (deletePin e pinId st)) = Map_get k (pins st)).
Proof.
  split; [|split].
  - intros H. unfold deletePin. now rewrite H.
  - intros H. unfold deletePin. rewrite H. now destruct (Map_get _ _).
  - intros pinData Hget Hc. rewrite pins_deletePin, Hget, Hc.
    split; [reflexivity|]. split.
    + apply Map_get_delete_eq.
    + intros k Hk. apply Map_get_delete_ne. congruence.
Qed.

Lemma deletePin_absent_declined_approved_witness :
  Map_get (id cafe) (pins (new_MapApp (env 0 [] true) (PinArray [EPin cafe])))
  = Some {| data := cafe; marker := 0 |} /\
  confirm (env 0 [] true) = true /\
  pins (deletePin (env 0 [] true) (id cafe)
          (new_MapApp (env 0 [] true) (PinArray [EPin cafe]))) = [].
Proof.
  assert (Map_get (id cafe)
            (pins (new_MapApp (env 0 [] true) (PinArray [EPin cafe])))
          = Some {| data := cafe; marker := 0 |}) as H1
    by (vm_compute; reflexivity).
  destruct (deletePin_absent_declined_approved (env 0 [] true) (id cafe)
              (new_MapApp (env 0 [] true) (PinArray [EPin cafe])))
    as [_ [_ K]].
  destruct (K _ H1 eq_refl) as [K1 _].
  refine (conj H1 (conj eq_refl _)).
  rewrite K1. vm_compute. reflexivity.
Defined.

(** ** C6: the round trip through the storage *)

(** After "Alpha" and "Gamma" are confirmed in turn the list shows "Gamma"
    first, the later pin, while [savePinsToStorage] writes the store in
    the order of its keys, and that is the sequence a fresh
    [new MapApp()] reads back: what is restored is the store, "Alpha"
    first, and not the list. *)
Lemma restore_follows_store_order :
  map (fun pin => title (data pin))
    (pinsArray (run asciiLower placeTwo (new_MapApp (env 0 [] true) NoItem)))
  = [str "Gamma"; str "Alpha"] /\
  map title
    (storedArray
       (new_MapApp (env 1700000800000 [] true)
          (localStorage
             (savePinsToStorage (env 1700000009500 [] true)
                (run asciiLower placeTwo
                   (new_MapApp (env 0 [] true) NoItem))))))
  = [str "Alpha"; str "Gamma"] /\
  map title
    (storedArray
       (new_MapApp (env 1700000800000 [] true)
          (localStorage
             (savePinsToStorage (env 1700000009500 [] true)
                (run asciiLower placeTwo
                   (new_MapApp (env 0 [] true) NoItem))))))
  <> map (fun pin => title (data pin))
       (pinsArray
          (run asciiLower placeTwo (new_MapApp (env 0 [] true) NoItem))).
Proof. repeat split; vm_compute; (reflexivity || discriminate). Qed.

(** C6, as the code has it.  [savePinsToStorage] writes the whole store,
    drafts included, in the order of its keys, and not the list.  In
    every state of a running application, when the storage accepts the
    write: what it writes, a fresh [new MapApp()] reads back.  The pins of
    the new store are, field by field ([id], [lat], [lng], [title],
    [description], and [createdAt] and [updatedAt] too), those of the old
    one in the same order, so that the pins the new application lists are
    those the old one listed, in the same order. *)
Theorem storage_round_trip
    (toLowerCase : jsstring -> jsstring) (e e' : Env) (st : App) :
  reachable toLowerCase st ->
  setItem_ok e (storedArray st) = true ->
  localStorage (savePinsToStorage e st)
  = PinArray (map EPin (map data (Map_values (pins st)))) /\
  storedArray (new_MapApp e' (localStorage (savePinsToStorage e st)))
  = storedArray st /\
  map data (pinsArray (new_MapApp e' (localStorage (savePinsToStorage e st))))
  = map data (pinsArray st).
Proof.
  intros H Hok.
  assert (storedArray (new_MapApp e' (localStorage (savePinsToStorage e st)))
          = storedArray st) as R.
  { apply round_trip_wellKeyed; [|exact Hok].
    now apply reachable_wellKeyed with toLowerCase. }
  split; [|split; [exact R|]].
  - rewrite localStorage_savePinsToStorage, Hok. reflexivity.
  - now rewrite !pinsArray_of_storedArray, R.
Qed.

Lemma storage_round_trip_witness :
  reachable asciiLower (run asciiLower declinedDiscard
                          (new_MapApp (env 0 [] true) NoItem)) /\
  map data
    (pinsArray
       (new_MapApp (env 1700000800000 [] true)
          (localStorage
             (savePinsToStorage (env 1700000009500 [] true)
                (run asciiLower declinedDiscard
                   (new_MapApp (env 0 [] true) NoItem))))))
  = [ {| id := str "pin_1700000004000_7hq2m5c8d"; lat := 36; lng := 140;
         title := str "Cafe"; description := [];
         createdAt := 1700000004000; updatedAt := Some 1700000009000 |} ].
Proof.
  assert (reachable asciiLower
            (run asciiLower declinedDiscard
               (new_MapApp (env 0 [] true) NoItem))) as H1
    by (repeat apply reachable_dispatch; apply reachable_new).
  destruct (storage_round_trip asciiLower (env 1700000009500 [] true)
              (env 1700000800000 [] true) _ H1 eq_refl) as [_ [_ K]].
  split; [exact H1|]. rewrite K. vm_compute. reflexivity.
Defined.

(** ** C7: loading what the storage holds *)

(** A stored array whose second element is [null]: the load reports the
    failure, and the pin read before it stays in the store. *)
Lemma loadPinsFromStorage_keeps_pins_read :
  notifications (new_MapApp (env 0 [] true) (PinArray [EPin cafe; ENull]))
  = [LoadFailed] /\
  storedArray (new_MapApp (env 0 [] true) (PinArray [EPin cafe; ENull]))
  = [cafe] /\
  pinCount (new_MapApp (env 0 [] true) (PinArray [EPin cafe; ENull]))
  = 1%nat.
Proof. repeat split; vm_compute; reflexivity. Qed.

Lemma find_last {A : Type} (f : A -> bool) (l : list A) (x : A) :
  find f (rev l ++ [x])
  = match find f (rev l) with
    | Some y => Some y
    | None => if f x then Some x else None
    end.
Proof.
  induction (rev l) as [|y r IH]; cbn [app find]; [reflexivity|].
  destruct (f y); [reflexivity|exact IH].
Qed.

(** The object a key holds after a load: the last of the objects read
    that has the key as its identifier, and what the store held for a key
    of none of them. *)
Lemma Map_get_load e ds st k :
  option_map data (Map_get k (pins (fold_left (addStored e) ds st)))
  = match find (hasId k) (rev ds) with
    | Some d => Some d
    | None => option_map data (Map_get k (pins st))
    end.
Proof.
  revert st. induction ds as [|d ds IH]; intros st; cbn [fold_left rev];
    [reflexivity|].
  rewrite IH, find_last. destruct (find (hasId k) (rev ds)); [reflexivity|].
  unfold addStored. rewrite pins_addPin. unfold hasId.
  destruct (string_dec (id d) k) as [<-|Hne].
  - now rewrite Map_get_set_eq.
  - now rewrite Map_get_set_ne by exact Hne.
Qed.

(** C7, as the code has it.  [new MapApp()] always ends in a state: the
    [catch] of line 235 takes every exception of the load.  Without
    stored text (no item, or the empty string) the store is empty and
    nothing is reported.  Text that is not JSON, or JSON that is not an
    array, is reported and the store is empty.  For an array of objects
    and [null]s, the failure is reported exactly when the array holds a
    [null], and the store keeps the objects read before the first
    [null], all of them when there is none: each key holds the last of
    these objects with that identifier, the store holds nothing else, and
    when their identifiers are distinct the store is these objects in
    their order.  So the store is empty only when no object stands before
    the [null]. *)
Theorem loadPinsFromStorage_degrades (e : Env) :
  new_MapApp e NoItem = constructed NoItem /\
  new_MapApp e EmptyText = constructed EmptyText /\
  new_MapApp e NotJSON = showNotification LoadFailed (constructed NotJSON) /\
  new_MapApp e NotArray = showNotification LoadFailed (constructed NotArray) /\
  forall l,
    notifications (new_MapApp e (PinArray l))
    = (if existsb isNull l then [LoadFailed] else []) /\
    (pins (new_MapApp e (PinArray l)) = [] <-> beforeNull l = []) /\
    Forall (fun pin => In (data pin) (beforeNull l))
      (Map_values (pins (new_MapApp e (PinArray l)))) /\
    (forall k,
       option_map data (Map_get k (pins (new_MapApp e (PinArray l))))
       = find (hasId k) (rev (beforeNull l))) /\
    (forall d,
       In d (beforeNull l) ->
       exists pin,
         Map_get (id d) (pins (new_MapApp e (PinArray l))) = Some pin /\
         id (data pin) = id d /\ In (data pin) (beforeNull l)) /\
    (NoDup (map id (beforeNull l)) ->
     storedArray (new_MapApp e (PinArray l)) = beforeNull l) /\
    (existsb isNull l = false ->
     beforeNull l
     = flat_map (fun el => match el with
                           | EPin d => [d]
                           | ENull => []
                           end) l).
Proof.
  assert (forall l k,
            option_map data (Map_get k (pins (new_MapApp e (PinArray l))))
            = find (hasId k) (rev (beforeNull l))) as Hget.
  { intros l k. rewrite pins_new_MapApp, Map_get_load.
    now destruct (find _ _). }
  split; [reflexivity|split; [reflexivity|split; [reflexivity|
    split; [reflexivity|]]]].
  intros l. split; [|split; [|split; [|split; [|split; [|split]]]]].
  - unfold new_MapApp, init, loadPinsFromStorage. cbn [localStorage constructed].
    destruct (existsb isNull l) eqn:E;
      [rewrite forEach_addPin_Throw by exact E
      |rewrite forEach_addPin_Normal by exact E];
      through notifications; cbn [notifications showNotification];
      now rewrite notifications_load.
  - rewrite pins_new_MapApp. split.
    + intros H.
      destruct (beforeNull l) as [|d ds]; [reflexivity|exfalso].
      revert H. cbn [fold_left]. apply pins_load_nonempty.
      unfold addStored. rewrite pins_addPin. apply Map_set_nonempty.
    + now intros ->.
  - rewrite pins_new_MapApp.
    apply (pins_load_from e (beforeNull l) (constructed (PinArray l))).
  - apply Hget.
  - intros d Hd. specialize (Hget l (id d)).
    destruct (find (hasId (id d)) (rev (beforeNull l))) as [d'|] eqn:F.
    + apply find_some in F as [Hin Hid]. unfold hasId in Hid.
      destruct (string_dec (id d') (id d)) as [E|]; [|discriminate].
      destruct (Map_get (id d) (pins (new_MapApp e (PinArray l))))
        as [pin|]; [|discriminate].
      cbn [option_map] in Hget. injection Hget as Hpin.
      exists pin. rewrite Hpin. split; [reflexivity|split; [exact E|]].
      now apply in_rev.
    + exfalso. apply in_rev in Hd.
      pose proof (find_none _ _ F d Hd) as N. unfold hasId in N.
      now destruct (string_dec (id d) (id d)).
  - intros Hnd. unfold storedArray at 1. rewrite pins_new_MapApp.
    fold (storedArray
            (fold_left (addStored e) (beforeNull l)
               (constructed (PinArray l)))).
    now rewrite load_appends.
  - intros E. induction l as [|[|d] l IH]; cbn in *;
      [reflexivity|discriminate|]. now rewrite IH.
Qed.

Lemma loadPinsFromStorage_degrades_witness :
  NoDup (map id (beforeNull [EPin pinA; EPin pinC; ENull; EPin pinB])) /\
  storedArray
    (new_MapApp (env 0 [] true) (PinArray [EPin pinA; EPin pinC; ENull; EPin pinB]))
  = [pinA; pinC].
Proof.
  assert (NoDup (map id (beforeNull [EPin pinA; EPin pinC; ENull; EPin pinB])))
    as H.
  { cbn. constructor; [|constructor; [|constructor]].
    - intros [E|[]]. discriminate E.
    - intros []. }
  destruct (loadPinsFromStorage_degrades (env 0 [] true))
    as [_ [_ [_ [_ K]]]].
  destruct (K [EPin pinA; EPin pinC; ENull; EPin pinB])
    as [_ [_ [_ [_ [_ [K' _]]]]]].
  exact (conj H (K' H)).
Defined.

(** ** C8: search *)

Lemma searchHit_empty toLowerCase value pin :
  trim (toLowerCase value) = [] -> searchHit toLowerCase value pin = true.
Proof. intros E. unfold searchHit. now rewrite E, includes_empty. Qed.

(** The description of [haystack] contains "needle", and the search for
    "needle" shows no row: the row's text stops at fifty characters. *)
Lemma searchPins_misses_long_description :
  includes (asciiLower (description haystack)) (asciiLower (str "needle"))
  = true /\
  pinsArray (new_MapApp (env 0 [] true) (PinArray [EPin haystack]))
  = [{| data := haystack; marker := 0 |}] /\
  filter row_display
    (pinList
       (searchPins asciiLower (str "needle")
          (new_MapApp (env 0 [] true) (PinArray [EPin haystack]))))
  = [].
Proof. repeat split; vm_compute; reflexivity. Qed.

(** The search for the three dots shows the row of [haystack], whose title
    and description hold no dot: the dots are those line 256 appends. *)
Lemma searchPins_hits_ellipsis :
  includes (title haystack) (str "...") = false /\
  includes (description haystack) (str "...") = false /\
  map row_pinId
    (filter row_display
       (pinList
          (searchPins asciiLower (str "...")
             (new_MapApp (env 0 [] true) (PinArray [EPin haystack])))))
  = [id haystack].
Proof. repeat split; vm_compute; reflexivity. Qed.

Lemma forallb_firstn {A : Type} (f : A -> bool) n (l : list A) :
  forallb f l = true -> forallb f (firstn n l) = true.
Proof.
  revert l. induction n as [|n IH]; intros [|x l]; cbn; try reflexivity.
  rewrite !andb_true_iff. intros [Hx Hl]. split; [exact Hx|now apply IH].
Qed.

(** Truncation, the three dots and the placeholder bring no markup. *)
Lemma plainText_renderDescription d :
  plainText d = true -> plainText (renderDescription d) = true.
Proof.
  intros H. unfold renderDescription, substring0.
  destruct (truthy d); [|reflexivity].
  unfold plainText. rewrite forallb_app. apply andb_true_iff. split.
  - now apply forallb_firstn.
  - now destruct (50 <? length d)%nat.
Qed.

Lemma plainRow_renderRow pin :
  plainPin pin = true -> plainRow (renderRow pin) = true.
Proof.
  unfold plainPin, plainRow, renderRow. cbn [row_pinId row_h4 row_p].
  rewrite !andb_true_iff. intros [[H1 H2] H3].
  repeat split; try assumption. now apply plainText_renderDescription.
Qed.

(** The rows of a refreshed sidebar have no markup when the confirmed pins
    have none. *)
Lemma plainRow_pinsArray st :
  sidebarPlain st = true ->
  forallb plainRow (map renderRow (pinsArray st)) = true.
Proof.
  unfold sidebarPlain. rewrite !forallb_forall. intros H row Hrow.
  apply in_map_iff in Hrow as [pin [<- Hpin]].
  apply plainRow_renderRow, H.
  eapply Permutation_in; [apply Array_sort_perm|exact Hpin].
Qed.

(** C8, as the code has it.  Take a store whose confirmed pins have no
    markup in their identifier, title and description.  After the
    sidebar is refreshed its rows have none either, so that the elements
    line 253 builds have the texts of [renderRow], and [searchPins] shows exactly the rows of the listed
    (confirmed) pins for which [searchHit] holds: the search text,
    lower-cased then trimmed, occurs in the lower-cased title or in the
    lower-cased text shown for the description, which is its first fifty
    characters, followed by three dots when it is longer, or the
    placeholder when it is empty.  A search text that is empty once
    trimmed shows every row. *)
Theorem searchPins_shows_hits_on_rendered_text
    (toLowerCase : jsstring -> jsstring) (value : jsstring) (st : App) :
  sidebarPlain st = true ->
  forallb plainRow (pinList (updateSidebar st)) = true /\
  map row_pinId
    (filter row_display
       (pinList (searchPins toLowerCase value (updateSidebar st))))
  = map (fun pin => id (data pin))
      (filter (searchHit toLowerCase value) (pinsArray st))
  /\
  (forall pin,
     searchHit toLowerCase value pin = true <->
     exists pre post,
       toLowerCase (title (data pin)) = pre ++ trim (toLowerCase value) ++ post
       \/ toLowerCase (renderDescription (description (data pin)))
          = pre ++ trim (toLowerCase value) ++ post)
  /\
  (trim (toLowerCase value) = [] ->
   map row_pinId
     (filter row_display
        (pinList (searchPins toLowerCase value (updateSidebar st))))
   = map (fun pin => id (data pin)) (pinsArray st)).
Proof.
  intros Hplain.
  split; [rewrite updateSidebar_rows; now apply plainRow_pinsArray|].
  assert (map row_pinId
            (filter row_display
               (pinList (searchPins toLowerCase value (updateSidebar st))))
          = map (fun pin => id (data pin))
              (filter (searchHit toLowerCase value) (pinsArray st))) as Hrows.
  { unfold searchPins. rewrite updateSidebar_rows. cbn [pinList set_pinList].
    generalize (pinsArray st). intros l.
    destruct (string_dec (trim (toLowerCase value)) []) as [E|E].
    - induction l as [|pin l IH]; [reflexivity|].
      cbn [map filter set_display row_display row_pinId renderRow].
      rewrite (searchHit_empty _ _ pin E). cbn [map]. f_equal. exact IH.
    - induction l as [|pin l IH]; [reflexivity|].
      cbn [map filter set_display row_display row_pinId renderRow row_h4 row_p].
      unfold searchHit at 1.
      destruct (includes _ _ || includes _ _); cbn [map row_pinId];
        [f_equal|]; exact IH. }
  split; [exact Hrows|split].
  - intros pin. unfold searchHit.
    rewrite orb_true_iff, !includes_spec. split.
    + intros [[pre [post H]]|[pre [post H]]]; exists pre, post; auto.
    + intros [pre [post [H|H]]]; [left|right]; now exists pre, post.
  - intros E. rewrite Hrows. f_equal. clear Hrows.
    induction (pinsArray st) as [|pin l IH]; [reflexivity|].
    cbn [filter]. rewrite (searchHit_empty _ _ pin E). now rewrite IH.
Qed.

Lemma searchPins_shows_hits_on_rendered_text_witness :
  sidebarPlain (new_MapApp (env 0 [] true) (PinArray [EPin pinA; EPin pinB]))
  = true /\
  trim (asciiLower (str "  ")) = [] /\
  map row_pinId
    (filter row_display
       (pinList
          (searchPins asciiLower (str "  ")
             (updateSidebar
                (new_MapApp (env 0 [] true) (PinArray [EPin pinA; EPin pinB]))))))
  = [id pinA; id pinB].
Proof.
  assert (sidebarPlain
            (new_MapApp (env 0 [] true) (PinArray [EPin pinA; EPin pinB]))
          = true) as H0 by (vm_compute; reflexivity).
  assert (trim (asciiLower (str "  ")) = []) as H1 by (vm_compute; reflexivity).
  destruct (searchPins_shows_hits_on_rendered_text asciiLower (str "  ")
              (new_MapApp (env 0 [] true) (PinArray [EPin pinA; EPin pinB]))
              H0)
    as [_ [_ [_ K]]].
  split; [exact H0|split; [exact H1|]]. rewrite (K H1). vm_compute.
  reflexivity.
Defined.

(** The scenario of the specification: "cafe" finds the pin titled
    "Cafe", and "xyz" finds nothing. *)
Lemma searchPins_cafe_and_xyz :
  map row_h4
    (filter row_display
       (pinList (searchPins asciiLower (str "cafe")
                   (new_MapApp (env 0 [] true) (PinArray [EPin cafe])))))
  = [str "Cafe"] /\
  filter row_display
    (pinList (searchPins asciiLower (str "xyz")
                (new_MapApp (env 0 [] true) (PinArray [EPin cafe]))))
  = [].
Proof. split; vm_compute; reflexivity. Qed.

(** ** C9: identifiers *)

(** Two clicks with the same clock reading and the same random characters
    get one identifier: the second draft takes the place of the first in
    the store, and both markers stay on the map. *)
Lemma generateUniqueId_collides :
  Map_keys (pins (run asciiLower sameDraw (new_MapApp (env 0 [] true) NoItem)))
  = [str "pin_1700000000000_k3j9x0q1z"] /\
  map (fun pin => lat (data pin))
    (Map_values
       (pins (run asciiLower sameDraw (new_MapApp (env 0 [] true) NoItem))))
  = [36%Q] /\
  layers (run asciiLower sameDraw (new_MapApp (env 0 [] true) NoItem))
  = [(0%nat, str "pin_1700000000000_k3j9x0q1z");
     (1%nat, str "pin_1700000000000_k3j9x0q1z")].
Proof. repeat split; vm_compute; reflexivity. Qed.

(** C9, as the code has it: two calls of [generateUniqueId] give the same
    identifier exactly when they read the same millisecond on the clock
    and draw the same random characters; nothing else (no counter, no
    look-up in the store) tells two calls apart. *)
Theorem generateUniqueId_eq_iff (e1 e2 : Env) :
  generateUniqueId e1 = generateUniqueId e2 <->
  Date_now e1 = Date_now e2 /\ random_suffix e1 = random_suffix e2.
Proof.
  unfold generateUniqueId. split.
  - intros H. apply app_inv_head in H.
    change (str "_") with [95%N] in H. cbn [app] in H.
    apply split_at_separator in H
      as [H1 H2]; try apply Number_toString_no_underscore.
    split; [now apply Number_toString_inj | exact H2].
  - intros [-> ->]. reflexivity.
Qed.

(** ** C10: what the handlers keep of a pin *)

(** A click on the map that generates the identifier of a pin of the
    store puts a new draft under that identifier: the pin confirmed as
    "Cafe" at (35, 139) is, after the click at (36, 140), an untitled pin
    at (36, 140) with another marker. *)
Lemma colliding_click_replaces_the_pin :
  Map_get draftId
    (pins (run asciiLower placeCafe (new_MapApp (env 0 [] true) NoItem)))
  = Some {| data := {| id := draftId; lat := 35; lng := 139;
                       title := str "Cafe"; description := [];
                       createdAt := 1700000000000;
                       updatedAt := Some 1700000009000 |};
            marker := 0 |} /\
  generateUniqueId (env 1700000000000 (str "k3j9x0q1z") true) = draftId /\
  Map_get draftId
    (pins (dispatch asciiLower (env 1700000000000 (str "k3j9x0q1z") true)
             (MapClick 36 140)
             (run asciiLower placeCafe (new_MapApp (env 0 [] true) NoItem))))
  = Some {| data := {| id := draftId; lat := 36; lng := 140;
                       title := []; description := [];
                       createdAt := 1700000000000; updatedAt := None |};
            marker := 1 |}.
Proof. repeat split; vm_compute; reflexivity. Qed.

(** C10, as the code has it.  Take a pin that is in the store before an
    event and still there after it.  Unless the event is a click on the
    map whose new identifier is the pin's own, the pin is as it was, or
    it is [updatedData] of what it was: its title, description and
    [updatedAt] are the only fields the handlers write, and [id], [lat],
    [lng], [createdAt] and the marker are kept.  After a click on the map
    whose new identifier is the pin's own, the key holds the draft of
    that click, at the coordinates clicked. *)
Theorem handlers_keep_geometry
    (toLowerCase : jsstring -> jsstring) (e : Env) (ev : Event) (st : App)
    (pinId : jsstring) (before after : Pin) :
  Map_get pinId (pins st) = Some before ->
  Map_get pinId (pins (dispatch toLowerCase e ev st)) = Some after ->
  ((forall lat0 lng0,
      ev = MapClick lat0 lng0 -> generateUniqueId e <> pinId) ->
   (after = before \/
    exists formData, after = updatedData e formData before) /\
   id (data after) = id (data before) /\
   lat (data after) = lat (data before) /\
   lng (data after) = lng (data before) /\
   createdAt (data after) = createdAt (data before) /\
   marker after = marker before) /\
  (forall lat0 lng0,
     ev = MapClick lat0 lng0 -> generateUniqueId e = pinId ->
     after = newDraft e lat0 lng0 (markersMade st)).
Proof.
  intros Hb Ha. split; [intros Hnew|].
  2:{ intros lat0 lng0 -> <-. cbn [dispatch] in Ha.
      rewrite pins_addPin, Map_get_set_eq in Ha. now injection Ha as <-. }
  assert (after = before \/ exists formData, after = updatedData e formData before)
    as H.
  { pose proof (dispatch_storeStep toLowerCase e ev st) as S.
    remember (pins (dispatch toLowerCase e ev st)) as m' eqn:Em. clear Em.
    assert (storeStep e (pins st) m' -> after = before \/
            exists formData, after = updatedData e formData before) as K.
    { intros T. inversion T as [E|cur pinData formData Hget E|k E|E];
        subst m'.
      - left; congruence.
      - destruct (string_dec cur pinId) as [->|Hne].
        + rewrite Map_get_set_eq in Ha. right. exists formData. congruence.
        + rewrite Map_get_set_ne in Ha by exact Hne. left; congruence.
      - apply Map_get_delete_Some in Ha. left; congruence.
      - discriminate Ha. }
    destruct ev as [lat0 lng0|m|m|t d| | |v| | | |[|]| |[|]];
      try (apply K; exact S).
    rewrite S in Ha.
    rewrite Map_get_set_ne in Ha by (eapply Hnew; reflexivity).
    left; congruence. }
  split; [exact H|].
  destruct H as [->|[formData ->]]; repeat split; reflexivity.
Qed.

Lemma handlers_keep_geometry_witness :
  Map_get draftId (pins draftOpen) = Some draftPin /\
  Map_get draftId
    (pins (dispatch asciiLower (env 1700000009000 [] true)
             (FormSubmit (str " Cafe ") []) draftOpen))
  = Some (updatedData (env 1700000009000 [] true) cafeForm draftPin) /\
  lat (data (updatedData (env 1700000009000 [] true) cafeForm draftPin))
  = lat (data draftPin) /\
  lng (data (updatedData (env 1700000009000 [] true) cafeForm draftPin))
  = lng (data draftPin).
Proof.
  assert (Map_get draftId (pins draftOpen) = Some draftPin) as H1
    by (vm_compute; reflexivity).
  assert (Map_get draftId
            (pins (dispatch asciiLower (env 1700000009000 [] true)
                     (FormSubmit (str " Cafe ") []) draftOpen))
          = Some (updatedData (env 1700000009000 [] true) cafeForm draftPin))
    as H2 by (vm_compute; reflexivity).
  destruct (handlers_keep_geometry asciiLower (env 1700000009000 [] true)
              (FormSubmit (str " Cafe ") []) draftOpen draftId draftPin
              (updatedData (env 1700000009000 [] true) cafeForm draftPin)
              H1 H2)
    as [K _].
  destruct K as [_ [_ [K1 [K2 _]]]].
  - intros lat0 lng0 H. discriminate H.
  - exact (conj H1 (conj H2 (conj K1 K2))).
Defined.

(** ** The edit button *)

(** [editPin] closes the information modal first, which clears
    [currentPinId] (lines 203 and 138); the form it opens has no current
    pin, [savePin] returns at line 142, and submitting the form leaves
    the store and the storage as they were. *)
Lemma editPin_then_submit_changes_nothing
    (toLowerCase : jsstring -> jsstring) (e : Env) (st : App)
    (pinTitle pinDescription : jsstring) :
  (forall cur pinData,
     current st = Some cur -> Map_get cur (pins st) = Some pinData ->
     commentModal (editPin st) = true /\ isEditing (editPin st) = true /\
     current (editPin st) = None) /\
  pins (dispatch toLowerCase e (FormSubmit pinTitle pinDescription)
          (editPin st)) = pins st /\
  localStorage (dispatch toLowerCase e (FormSubmit pinTitle pinDescription)
                  (editPin st)) = localStorage st.
Proof.
  split.
  { intros cur pinData Hcur Hget. unfold editPin. rewrite Hcur, Hget.
    repeat split. }
  assert (forall formData, savePin e formData (editPin st) = editPin st) as Hs.
  { intros formData. unfold editPin.
    destruct (current st) as [cur|] eqn:Hcur.
    - destruct (Map_get cur (pins st)) as [pinData|] eqn:Hget.
      + reflexivity.
      + unfold savePin. now rewrite Hcur, Hget.
    - unfold savePin. now rewrite Hcur. }
  assert (pins (editPin st) = pins st /\
          localStorage (editPin st) = localStorage st) as [Hp Hl].
  { unfold editPin. destruct (current st) as [cur|]; [|now split].
    destruct (Map_get cur (pins st)); now split. }
  cbn [dispatch]. unfold validateInput.
  destruct (negb _); [now split|].
  destruct (50 <? _)%nat; [now split|].
  destruct (200 <? _)%nat; [now split|].
  rewrite Hs. now split.
Qed.

(** * Further properties of the methods *)

(** ** Reading a field across the views *)

Lemma savePinsToStorage_keeps {A : Type} (field : App -> A) e st :
  (forall v s, field (set_localStorage v s) = field s) ->
  (forall n s, field (showNotification n s) = field s) ->
  field (savePinsToStorage e st) = field st.
Proof.
  intros H1 H2. unfold savePinsToStorage. destruct (setItem_ok _ _); auto.
Qed.

Lemma notifications_savePinsToStorage e st :
  notifications (savePinsToStorage e st) =
  if setItem_ok e (storedArray st) then notifications st
  else SaveFailed :: notifications st.
Proof. unfold savePinsToStorage. now destruct (setItem_ok _ _). Qed.

(** ** The store of a running application *)

(** In every state of a running application no key is in the store
    twice, and each pin is stored under its own identifier: [addPin] keys
    a pin by the [id] it gives it, [savePin] writes back under the key it
    read, and the other methods only remove keys. *)
Theorem store_keys_are_pin_ids
    (toLowerCase : jsstring -> jsstring) (st : App) :
  reachable toLowerCase st ->
  NoDup (Map_keys (pins st)) /\
  forall k pin, Map_get k (pins st) = Some pin -> id (data pin) = k.
Proof.
  intros H. destruct (reachable_wellKeyed toLowerCase st H) as [Hnd Hid].
  split; [exact Hnd|]. intros k pin Hget.
  rewrite Forall_forall in Hid. apply (Hid (k, pin)). now apply Map_get_In.
Qed.

Lemma store_keys_are_pin_ids_witness :
  reachable asciiLower
    (run asciiLower declinedDiscard (new_MapApp (env 0 [] true) NoItem)) /\
  NoDup
    (Map_keys
       (pins (run asciiLower declinedDiscard
                (new_MapApp (env 0 [] true) NoItem)))).
Proof.
  assert (reachable asciiLower
            (run asciiLower declinedDiscard
               (new_MapApp (env 0 [] true) NoItem))) as H1
    by (repeat apply reachable_dispatch; apply reachable_new).
  exact (conj H1 (proj1 (store_keys_are_pin_ids asciiLower _ H1))).
Defined.

(** ** The form *)

(** What the submit handler (lines 361-371) does with the text typed: a
    title that is empty or white space only shows the first message,
    however long it is; otherwise a trimmed title of more than 50 code
    units shows the second; otherwise a trimmed description of more than
    200 shows the third; in each case nothing else changes.  Otherwise
    the trimmed values go to [savePin]. *)
Theorem submit_checks_trimmed_fields
    (toLowerCase : jsstring -> jsstring) (e : Env)
    (pinTitle pinDescription : jsstring) (st : App) :
  dispatch toLowerCase e (FormSubmit pinTitle pinDescription) st =
  if string_dec (trim pinTitle) [] then showNotification TitleRequired st
  else if (50 <? length (trim pinTitle))%nat
  then showNotification TitleTooLong st
  else if (200 <? length (trim pinDescription))%nat
  then showNotification DescriptionTooLong st
  else savePin e {| form_title := trim pinTitle;
                    form_description := trim pinDescription |} st.
Proof.
  cbn [dispatch]. unfold validateInput. cbn [form_title form_description].
  rewrite trim_trim.
  destruct (string_dec (trim pinTitle) []) as [E|E].
  - now rewrite E.
  - destruct (trim pinTitle) as [|c t]; [congruence|]. cbn [truthy negb].
    destruct (50 <? length (c :: t))%nat; [reflexivity|].
    destruct (200 <? length (trim pinDescription))%nat; reflexivity.
Qed.

(** ** The string of a row *)

(** The string line 256 interpolates into the [p] of a row: the
    placeholder for an empty description, the description itself up to 50
    code units, and beyond that its first 50 code units and three dots, 53
    code units in all.  So the string is never empty and never longer
    than 53 code units, and it has no markup when the description has
    none: it is then the text of the [p]. *)
Theorem renderDescription_cases (d : jsstring) :
  (d = [] -> renderDescription d = noDescription) /\
  (d <> [] -> (length d <= 50)%nat -> renderDescription d = d) /\
  ((50 < length d)%nat ->
   renderDescription d = firstn 50 d ++ str "..." /\
   length (renderDescription d) = 53%nat) /\
  renderDescription d <> [] /\
  (length (renderDescription d) <= 53)%nat /\
  (plainText d = true -> plainText (renderDescription d) = true).
Proof.
  cut ((d = [] -> renderDescription d = noDescription) /\
       (d <> [] -> (length d <= 50)%nat -> renderDescription d = d) /\
       ((50 < length d)%nat ->
        renderDescription d = firstn 50 d ++ str "..." /\
        length (renderDescription d) = 53%nat) /\
       renderDescription d <> [] /\
       (length (renderDescription d) <= 53)%nat).
  { intros [A [B [C [D E]]]].
    repeat (split; [assumption|]). apply plainText_renderDescription. }
  assert (d <> [] -> (length d <= 50)%nat -> renderDescription d = d) as H1.
  { unfold renderDescription, substring0. intros Hne Hl.
    destruct d as [|c d]; [congruence|]. cbn [truthy].
    destruct (50 <? length (c :: d))%nat eqn:E.
    + apply Nat.ltb_lt in E. lia.
    + rewrite app_nil_r. now apply firstn_all2. }
  assert ((50 < length d)%nat ->
          renderDescription d = firstn 50 d ++ str "..." /\
          length (renderDescription d) = 53%nat) as H2.
  { unfold renderDescription, substring0. intros Hl.
    destruct d as [|c d]; [cbn in Hl; lia|]. cbn [truthy].
    destruct (50 <? length (c :: d))%nat eqn:E.
    + split; [reflexivity|]. rewrite length_app, length_firstn.
      change (length (str "...")) with 3%nat. lia.
    + apply Nat.ltb_ge in E. lia. }
  split; [now intros ->|split; [exact H1|split; [exact H2|]]].
  destruct d as [|c d]; [split; [discriminate|cbn; lia]|].
  destruct (Nat.le_gt_cases (length (c :: d)) 50) as [Hl|Hl].
  - rewrite H1 by (discriminate || exact Hl). split; [discriminate|lia].
  - destruct (H2 Hl) as [_ E]. split; [|lia].
    intros N. rewrite N in E. discriminate E.
Qed.

Lemma renderDescription_cases_witness :
  (50 < length (description haystack))%nat /\
  length (renderDescription (description haystack)) = 53%nat.
Proof.
  assert (50 < length (description haystack))%nat as H by (vm_compute; lia).
  destruct (renderDescription_cases (description haystack)) as [_ [_ [K _]]].
  exact (conj H (proj2 (K H))).
Defined.

(** ** Closing the form *)

Lemma deletePin_keeps {A : Type} (field : App -> A) e pinId st :
  (forall v n s, field (set_layers v n s) = field s) ->
  (forall v s, field (set_pins v s) = field s) ->
  (forall v s, field (set_localStorage v s) = field s) ->
  (forall v s, field (set_pinList v s) = field s) ->
  (forall v s, field (set_pinCount v s) = field s) ->
  (forall v s, field (set_pinInfoModal v s) = field s) ->
  (forall v s, field (set_currentPinId v s) = field s) ->
  (forall n s, field (showNotification n s) = field s) ->
  field (deletePin e pinId st) = field st.
Proof.
  intros H1 H2 H3 H4 H5 H6 H7 H8. unfold deletePin.
  destruct (Map_get pinId (pins st)); [|reflexivity].
  destruct (confirm e); [|reflexivity]. cbv zeta.
  unfold hidePinInfoModal, updatePinCount, removeLayer.
  rewrite H8, H7, H6, H5, updateSidebar_rows, H4.
  rewrite (savePinsToStorage_keeps field) by assumption.
  now rewrite H2, H1.
Qed.

Lemma hideCommentModal_shape e st :
  exists x,
    hideCommentModal e st = set_isEditing false (set_currentPinId None x) /\
    commentModal x = false.
Proof.
  unfold hideCommentModal. cbv zeta. eexists. split; [reflexivity|].
  destruct (isEditing _); [reflexivity|].
  destruct (current _) as [cur|]; [|reflexivity].
  destruct (Map_get cur _) as [pinData|]; [|reflexivity].
  destruct (truthy _); [reflexivity|].
  now rewrite (deletePin_keeps commentModal) by reflexivity.
Qed.

(** [hideCommentModal] discards a draft only: a pin with a title stays,
    whatever the current pin and the answer to the prompt, and so does
    every pin other than the current one.  It leaves the form closed, no
    current pin and [isEditing] off, so that a second call changes
    nothing. *)
Theorem hideCommentModal_discards_drafts_only (e e' : Env) (st : App) :
  (forall k pin,
     Map_get k (pins st) = Some pin -> confirmed pin = true ->
     Map_get k (pins (hideCommentModal e st)) = Some pin) /\
  (forall k,
     current st <> Some k ->
     Map_get k (pins (hideCommentModal e st)) = Map_get k (pins st)) /\
  commentModal (hideCommentModal e st) = false /\
  currentPinId (hideCommentModal e st) = None /\
  isEditing (hideCommentModal e st) = false /\
  hideCommentModal e' (hideCommentModal e st) = hideCommentModal e st.
Proof.
  assert (forall k,
            (forall pin, Map_get k (pins st) = Some pin -> confirmed pin = true)
            \/ current st <> Some k ->
            Map_get k (pins (hideCommentModal e st)) = Map_get k (pins st))
    as Hkeep.
  { intros k Hk. rewrite pins_hideCommentModal.
    destruct (isEditing st); [reflexivity|].
    destruct (current st) as [cur|] eqn:Hcur; [|reflexivity].
    destruct (Map_get cur (pins st)) as [pinData|] eqn:Hget; [|reflexivity].
    destruct (confirmed pinData) eqn:Hc; [reflexivity|].
    destruct (confirm e); [|reflexivity].
    apply Map_get_delete_ne. intros <-.
    destruct Hk as [Hk|Hk]; [|congruence].
    rewrite (Hk _ Hget) in Hc. discriminate Hc. }
  destruct (hideCommentModal_shape e st) as [x [Hshape Hx]].
  split; [|split; [|split; [|split; [|split]]]].
  - intros k pin Hget Hc. rewrite Hkeep; [exact Hget|].
    left. intros pin' Hget'. congruence.
  - intros k Hk. apply Hkeep. now right.
  - rewrite Hshape. exact Hx.
  - now rewrite Hshape.
  - now rewrite Hshape.
  - rewrite Hshape. unfold hideCommentModal. cbn. unfold set_isEditing, set_currentPinId, set_commentModal. cbn. now rewrite Hx.
Qed.

Lemma hideCommentModal_discards_drafts_only_witness :
  Map_get (id cafe) (pins cafeInfoOpen) = Some {| data := cafe; marker := 0 |} /\
  current cafeInfoOpen = Some (id cafe) /\
  Map_get (id cafe) (pins (hideCommentModal (env 0 [] true) cafeInfoOpen))
  = Some {| data := cafe; marker := 0 |}.
Proof.
  assert (Map_get (id cafe) (pins cafeInfoOpen)
          = Some {| data := cafe; marker := 0 |}) as H1
    by (vm_compute; reflexivity).
  assert (current cafeInfoOpen = Some (id cafe)) as H2
    by (vm_compute; reflexivity).
  destruct (hideCommentModal_discards_drafts_only (env 0 [] true)
              (env 0 [] true) cafeInfoOpen) as [K _].
  exact (conj H1 (conj H2 (K _ _ H1 eq_refl))).
Defined.

(** ** Markers and pins *)

Ltac across field :=
  repeat (progress (through field;
                    rewrite ?(savePinsToStorage_keeps field) by reflexivity)).

Lemma markersTracked_same st st' :
  layers st' = layers st -> markersMade st' = markersMade st ->
  pins st' = pins st -> markersTracked st -> markersTracked st'.
Proof. unfold markersTracked. now intros -> -> ->. Qed.

Lemma layers_unique (l : list (nat * jsstring)) m k k' :
  NoDup (map fst l) -> In (m, k) l -> In (m, k') l -> k = k'.
Proof.
  induction l as [|[m0 k0] l IH]; cbn [map fst]; intros Hnd H H';
    [destruct H|].
  inversion Hnd as [|? ? Hm Hl]; subst.
  destruct H as [H|H], H' as [H'|H'].
  - congruence.
  - inversion H; subst. exfalso. apply Hm.
    apply in_map_iff. now exists (m, k').
  - inversion H'; subst. exfalso. apply Hm.
    apply in_map_iff. now exists (m, k).
  - now apply IH.
Qed.

Lemma handlerPinId_In (l : list (nat * jsstring)) m k :
  NoDup (map fst l) -> In (m, k) l -> handlerPinId m l = Some k.
Proof.
  induction l as [|[m0 k0] l IH]; cbn [map fst handlerPinId]; intros Hnd H;
    [destruct H|].
  inversion Hnd as [|? ? Hm Hl]; subst.
  destruct (Nat.eqb_spec m0 m) as [->|Hne].
  - destruct H as [H|H]; [congruence|].
    exfalso. apply Hm. apply in_map_iff. now exists (m, k).
  - destruct H as [H|H]; [congruence|]. now apply IH.
Qed.

Lemma In_Map_set {V : Type} k (v : V) kv m :
  In kv (Map_set k v m) -> kv = (k, v) \/ In kv m.
Proof.
  induction m as [|[k' v'] m IH]; cbn.
  - intros [<-|[]]. now left.
  - destruct (string_dec k' k); cbn.
    + intros [<-|H]; [now left|right; now right].
    + intros [<-|H]; [right; now left|].
      destruct (IH H) as [->|H']; [now left|right; now right].
Qed.

Lemma In_Map_delete {V : Type} k (kv : jsstring * V) m :
  In kv (Map_delete k m) <-> In kv m /\ fst kv <> k.
Proof.
  unfold Map_delete. rewrite filter_In.
  destruct (string_dec (fst kv) k); split; intros [H H']; split;
    congruence || assumption.
Qed.

Lemma markersTracked_addPin e lat0 lng0 data0 st :
  markersTracked st -> markersTracked (addPin e lat0 lng0 data0 st).
Proof.
  intros [Hlt [Hnd Hin]].
  set (k := match data0 with Some d => id d | None => generateUniqueId e end).
  assert (layers (addPin e lat0 lng0 data0 st)
          = layers st ++ [(markersMade st, k)]) as Hl
    by (unfold addPin, L_marker_addTo; destruct data0; cbv zeta;
        through layers; reflexivity).
  assert (markersMade (addPin e lat0 lng0 data0 st) = S (markersMade st)) as Hm
    by (unfold addPin, L_marker_addTo; destruct data0; cbv zeta;
        through markersMade; reflexivity).
  unfold markersTracked. rewrite Hl, Hm. split; [|split].
  - apply Forall_app. split.
    + eapply Forall_impl; [|exact Hlt]. cbn. intros; lia.
    + constructor; [cbn; lia|constructor].
  - rewrite map_app. cbn [map fst]. apply NoDup_app; [exact Hnd| |].
    + constructor; [intros []|constructor].
    + intros m Hm' [<-|[]]. apply in_map_iff in Hm' as [l [E Hl']].
      rewrite Forall_forall in Hlt. specialize (Hlt l Hl'). lia.
  - rewrite pins_addPin. apply Forall_forall. intros kv Hkv.
    assert (kv = (k, {| data := data (snd kv); marker := markersMade st |})
            \/ In kv (pins st)) as [E|Hold].
    { destruct data0; apply In_Map_set in Hkv as [->|H]; auto. }
    + rewrite E. cbn. apply in_or_app. right. now left.
    + rewrite Forall_forall in Hin. apply in_or_app. left. now apply Hin.
Qed.

Lemma layers_deletePin e pinId st :
  layers (deletePin e pinId st) =
  match Map_get pinId (pins st) with
  | Some pinData =>
      if confirm e
      then filter (fun l => negb (Nat.eqb (fst l) (marker pinData))) (layers st)
      else layers st
  | None => layers st
  end.
Proof.
  unfold deletePin. destruct (Map_get pinId (pins st)); [|reflexivity].
  destruct (confirm e); [|reflexivity]. cbv zeta. across layers.
  reflexivity.
Qed.

Lemma markersMade_deletePin e pinId st :
  markersMade (deletePin e pinId st) = markersMade st.
Proof.
  unfold deletePin. destruct (Map_get pinId (pins st)); [|reflexivity].
  destruct (confirm e); [|reflexivity]. cbv zeta. across markersMade.
  reflexivity.
Qed.

Lemma markersTracked_filter (f : nat * jsstring -> bool) st st' :
  layers st' = filter f (layers st) -> markersMade st' = markersMade st ->
  (forall kv, In kv (pins st') ->
              In kv (pins st) /\ f (marker (snd kv), fst kv) = true) ->
  markersTracked st -> markersTracked st'.
Proof.
  intros Hl Hm Hp [Hlt [Hnd Hin]]. unfold markersTracked.
  rewrite Hl, Hm. split; [|split].
  - apply Forall_forall. intros l H. apply filter_In in H as [H _].
    rewrite Forall_forall in Hlt. now apply Hlt.
  - clear -Hnd. induction (layers st) as [|l ls IH]; cbn; [constructor|].
    inversion Hnd as [|? ? Hx Hls]; subst.
    destruct (f l); [|now apply IH]. cbn. constructor; [|now apply IH].
    intros H. apply Hx. apply in_map_iff in H as [y [E H]].
    apply filter_In in H as [H _]. apply in_map_iff. now exists y.
  - apply Forall_forall. intros kv H. destruct (Hp kv H) as [Hold Hf].
    apply filter_In. split; [|exact Hf].
    rewrite Forall_forall in Hin. now apply Hin.
Qed.

Lemma markersTracked_deletePin e pinId st :
  markersTracked st -> markersTracked (deletePin e pinId st).
Proof.
  intros H.
  destruct (Map_get pinId (pins st)) as [pinData|] eqn:Hget;
    [destruct (confirm e) eqn:Hc|].
  - apply (markersTracked_filter
             (fun l => negb (Nat.eqb (fst l) (marker pinData))) st); try exact H.
    + now rewrite layers_deletePin, Hget, Hc.
    + apply markersMade_deletePin.
    + intros kv Hkv. rewrite pins_deletePin, Hget, Hc in Hkv.
      apply In_Map_delete in Hkv as [Hkv Hne]. split; [exact Hkv|].
      cbn [fst]. apply negb_true_iff, Nat.eqb_neq. intros E.
      destruct H as [_ [Hnd Hin]]. rewrite Forall_forall in Hin.
      apply Hne.
      apply (layers_unique (layers st) (marker pinData)); [exact Hnd| |].
      * rewrite <- E. now apply (Hin kv).
      * apply (Hin (pinId, pinData)). now apply Map_get_In.
  - unfold deletePin. now rewrite Hget, Hc.
  - unfold deletePin. now rewrite Hget.
Qed.

Lemma markersTracked_hideCommentModal e st :
  markersTracked st -> markersTracked (hideCommentModal e st).
Proof.
  intros H. unfold hideCommentModal. cbv zeta.
  change (markersTracked (set_isEditing false ?s)) with (markersTracked s).
  change (markersTracked (set_currentPinId None ?s)) with (markersTracked s).
  destruct (isEditing _); [exact H|].
  destruct (current _) as [cur|]; [|exact H].
  destruct (Map_get cur _) as [pinData|]; [|exact H].
  destruct (truthy _); [exact H|].
  apply markersTracked_deletePin. exact H.
Qed.

Lemma markersTracked_update e formData cur pinData st :
  Map_get cur (pins st) = Some pinData ->
  markersTracked st ->
  markersTracked
    (set_pins (Map_set cur (updatedData e formData pinData) (pins st)) st).
Proof.
  intros Hget [Hlt [Hnd Hin]]. split; [exact Hlt|split; [exact Hnd|]].
  cbn [pins set_pins layers]. rewrite Forall_forall in *. intros kv Hkv.
  apply In_Map_set in Hkv as [->|Hkv]; [|now apply Hin].
  cbn [fst snd updatedData marker].
  apply (Hin (cur, pinData)). now apply Map_get_In.
Qed.

Lemma markersTracked_savePin e formData st :
  markersTracked st -> markersTracked (savePin e formData st).
Proof.
  intros H. unfold savePin.
  destruct (current st) as [cur|]; [|exact H].
  destruct (Map_get cur (pins st)) as [pinData|] eqn:Hget; [|exact H].
  cbv zeta.
  change (markersTracked (showNotification ?n ?s)) with (markersTracked s).
  apply markersTracked_hideCommentModal.
  apply (markersTracked_same
           (set_pins (Map_set cur (updatedData e formData pinData) (pins st))
              st)).
  - across layers. reflexivity.
  - across markersMade. reflexivity.
  - across pins. reflexivity.
  - now apply markersTracked_update.
Qed.

Lemma layers_removeLayers (l : list Pin) st :
  layers (fold_left (fun st pinData => removeLayer (marker pinData) st) l st)
  = filter (fun x => negb (existsb (Nat.eqb (fst x)) (map marker l)))
      (layers st).
Proof.
  revert st. induction l as [|p l IH]; intros st; cbn [fold_left map existsb].
  - clear. induction (layers st) as [|x xs IHx]; cbn; [reflexivity|].
    f_equal. exact IHx.
  - rewrite IH. unfold removeLayer. cbn [layers set_layers].
    clear. induction (layers st) as [|x xs IHx]; cbn [filter]; [reflexivity|].
    destruct (Nat.eqb (fst x) (marker p)) eqn:E; cbn [negb orb filter].
    + exact IHx.
    + destruct (existsb _ _); cbn [negb]; [exact IHx|]. now rewrite IHx.
Qed.

Lemma markersTracked_clearAllPins e st :
  markersTracked st -> markersTracked (clearAllPins e st).
Proof.
  intros H. unfold clearAllPins.
  destruct (Map_size (pins st) =? 0)%nat; [exact H|].
  destruct (confirm e); [|exact H]. cbv zeta.
  apply (markersTracked_filter
           (fun x => negb (existsb (Nat.eqb (fst x))
                             (map marker (Map_values (pins st))))) st);
    try exact H.
  - across layers. cbn [layers set_pins]. apply layers_removeLayers.
  - across markersMade. cbn [markersMade set_pins].
    apply (removeLayers_keep markersMade). reflexivity.
  - across pins. cbn [pins set_pins]. intros kv [].
Qed.

Lemma markersTracked_load e ds st :
  markersTracked st -> markersTracked (fold_left (addStored e) ds st).
Proof.
  revert st. induction ds as [|d ds IH]; intros st H; cbn [fold_left];
    [exact H|].
  apply IH. unfold addStored. now apply markersTracked_addPin.
Qed.

Lemma markersTracked_new e slot : markersTracked (new_MapApp e slot).
Proof.
  assert (markersTracked (constructed slot)) as H0
    by (split; [constructor|split; constructor]).
  unfold new_MapApp, init, loadPinsFromStorage.
  change (markersTracked (updatePinCount ?s)) with (markersTracked s).
  destruct slot as [| | | |l]; cbn [localStorage constructed]; try exact H0.
  destruct (existsb isNull l) eqn:E;
    [rewrite forEach_addPin_Throw by exact E
    |rewrite forEach_addPin_Normal by exact E];
    now apply markersTracked_load.
Qed.

Lemma markersTracked_dispatch toLowerCase e ev st :
  markersTracked st -> markersTracked (dispatch toLowerCase e ev st).
Proof.
  intros H. destruct ev as [lat0 lng0|m|m|pinTitle pinDescription| | |value
                           | | | |modal| |modal]; cbn [dispatch].
  - now apply markersTracked_addPin.
  - destruct (handlerPinId m (layers st)) as [pinId|]; [|exact H].
    destruct (Map_get pinId (pins st)) as [pinData|]; [|exact H].
    destruct (truthy _); exact H.
  - destruct (handlerPinId m (layers st)) as [pinId|]; [|exact H].
    now apply markersTracked_deletePin.
  - cbv zeta.
    destruct (validateInput _ st) as [valid st'] eqn:Hv.
    assert (markersTracked st') as H'.
    { unfold validateInput in Hv.
      repeat match type of Hv with
             | (if ?c then _ else _) = _ => destruct c
             end; inversion Hv; subst; exact H. }
    destruct valid; [now apply markersTracked_savePin|exact H'].
  - now apply markersTracked_hideCommentModal.
  - now apply markersTracked_clearAllPins.
  - exact H.
  - unfold editPin. destruct (current st) as [cur|]; [|exact H].
    destruct (Map_get cur (pins st)); exact H.
  - destruct (current st) as [cur|]; [|exact H].
    now apply markersTracked_deletePin.
  - exact H.
  - destruct modal; [now apply markersTracked_hideCommentModal|exact H].
  - destruct (commentModal st); [now apply markersTracked_hideCommentModal|].
    destruct (pinInfoModal st); exact H.
  - destruct modal; [now apply markersTracked_hideCommentModal|exact H].
Qed.

Lemma reachable_markersTracked toLowerCase st :
  reachable toLowerCase st -> markersTracked st.
Proof.
  induction 1 as [e slot|e ev st _ IH].
  - apply markersTracked_new.
  - now apply markersTracked_dispatch.
Qed.

(** In a running application the marker of a pin carries the handlers of
    that pin and of no other: a click on the marker of a confirmed pin
    opens the details of this pin and selects it, a click on the marker of
    a draft does nothing, a right click asks to delete this pin, and two
    keys of the store never share a marker (lines 37, 59-69, 119-133). *)
Theorem marker_handlers_reach_their_pin
    (toLowerCase : jsstring -> jsstring) (e : Env) (st : App)
    (k : jsstring) (pin : Pin) :
  reachable toLowerCase st ->
  Map_get k (pins st) = Some pin ->
  dispatch toLowerCase e (MarkerClick (marker pin)) st
  = (if confirmed pin then showPinInfo pin st else st) /\
  (confirmed pin = true ->
   currentPinId (dispatch toLowerCase e (MarkerClick (marker pin)) st)
   = Some k /\
   pinInfoModal (dispatch toLowerCase e (MarkerClick (marker pin)) st)
   = true) /\
  dispatch toLowerCase e (MarkerContextMenu (marker pin)) st
  = deletePin e k st /\
  (forall k' pin',
     Map_get k' (pins st) = Some pin' -> marker pin' = marker pin -> k' = k).
Proof.
  intros Hr Hget.
  destruct (reachable_markersTracked _ _ Hr) as [_ [Hnd Hin]].
  destruct (reachable_wellKeyed _ _ Hr) as [Hkeys Hids].
  rewrite Forall_forall in Hin, Hids.
  pose proof (Hin (k, pin) (Map_get_In _ _ _ Hget)) as Hlayer.
  cbn [fst snd] in Hlayer.
  pose proof (handlerPinId_In _ _ _ Hnd Hlayer) as Hh.
  assert (dispatch toLowerCase e (MarkerClick (marker pin)) st
          = (if confirmed pin then showPinInfo pin st else st)) as Hclick
    by (cbn [dispatch]; now rewrite Hh, Hget).
  split; [exact Hclick|split; [|split]].
  - intros Hc. rewrite Hclick, Hc. split; [|reflexivity].
    pose proof (Hids (k, pin) (Map_get_In _ _ _ Hget)) as Hid.
    cbn [fst snd] in Hid. unfold showPinInfo.
    change (currentPinId (set_pinInfoModal ?v ?s)) with (currentPinId s).
    cbn [currentPinId set_currentPinId]. now rewrite Hid.
  - cbn [dispatch]. now rewrite Hh.
  - intros k' pin' Hget' Hm.
    pose proof (Hin (k', pin') (Map_get_In _ _ _ Hget')) as Hlayer'.
    cbn [fst snd] in Hlayer'. rewrite Hm in Hlayer'.
    exact (layers_unique _ _ _ _ Hnd Hlayer' Hlayer).
Qed.

Lemma marker_handlers_reach_their_pin_witness :
  reachable asciiLower (new_MapApp (env 0 [] true) (PinArray [EPin cafe])) /\
  Map_get (id cafe) (pins (new_MapApp (env 0 [] true) (PinArray [EPin cafe])))
  = Some {| data := cafe; marker := 0 |} /\
  dispatch asciiLower (env 0 [] false) (MarkerContextMenu 0)
    (new_MapApp (env 0 [] true) (PinArray [EPin cafe]))
  = deletePin (env 0 [] false) (id cafe)
      (new_MapApp (env 0 [] true) (PinArray [EPin cafe])).
Proof.
  assert (reachable asciiLower
            (new_MapApp (env 0 [] true) (PinArray [EPin cafe]))) as H1
    by apply reachable_new.
  assert (Map_get (id cafe)
            (pins (new_MapApp (env 0 [] true) (PinArray [EPin cafe])))
          = Some {| data := cafe; marker := 0 |}) as H2
    by (vm_compute; reflexivity).
  destruct (marker_handlers_reach_their_pin asciiLower (env 0 [] false)
              _ _ _ H1 H2) as [_ [_ [K _]]].
  exact (conj H1 (conj H2 K)).
Defined.

(** ** From a click on the map to a pin *)

Lemma generateUniqueId_truthy e : truthy (generateUniqueId e) = true.
Proof. reflexivity. Qed.

Lemma current_addPin_new e lat0 lng0 st :
  current (addPin e lat0 lng0 None st) = Some (generateUniqueId e).
Proof.
  unfold addPin, L_marker_addTo. cbv zeta. through current. reflexivity.
Qed.

Lemma isEditing_addPin_new e lat0 lng0 st :
  isEditing (addPin e lat0 lng0 None st) = false.
Proof.
  unfold addPin, L_marker_addTo. cbv zeta. through isEditing. reflexivity.
Qed.

Lemma submit_valid toLowerCase e pinTitle pinDescription st :
  trim pinTitle <> [] ->
  (length (trim pinTitle) <= 50)%nat ->
  (length (trim pinDescription) <= 200)%nat ->
  dispatch toLowerCase e (FormSubmit pinTitle pinDescription) st
  = savePin e {| form_title := trim pinTitle;
                 form_description := trim pinDescription |} st.
Proof.
  intros Ht Hl Hd. cbn [dispatch]. unfold validateInput.
  cbn [form_title form_description]. rewrite trim_trim.
  apply Nat.ltb_ge in Hl, Hd. rewrite Hl, Hd.
  destruct (trim pinTitle); [congruence|reflexivity].
Qed.

Lemma In_pinsArray pin st :
  In pin (pinsArray st) <->
  In pin (Map_values (pins st)) /\ confirmed pin = true.
Proof.
  unfold pinsArray. rewrite <- filter_In. split; intros H.
  - eapply Permutation_in; [apply Array_sort_perm|exact H].
  - eapply Permutation_in; [apply Permutation_sym, Array_sort_perm|exact H].
Qed.

(** A click on the map followed by a valid submission of the form leaves
    one confirmed pin under the identifier generated at the click: it has
    the coordinates of the click, the trimmed title and description, the
    creation date of the click and the update date of the submission, and
    the marker placed at the click.  It is listed in the sidebar, the form
    is closed and no pin is current, every other key of the store holds
    what it held, and when the storage accepts the write it holds the
    store (lines 25, 34-57, 361-371, 141-162). *)
Theorem click_then_submit_makes_the_pin
    (toLowerCase : jsstring -> jsstring) (e1 e2 : Env) (lat0 lng0 : Q)
    (pinTitle pinDescription : jsstring) (st : App) :
  trim pinTitle <> [] ->
  (length (trim pinTitle) <= 50)%nat ->
  (length (trim pinDescription) <= 200)%nat ->
  let st1 := dispatch toLowerCase e1 (MapClick lat0 lng0) st in
  let st2 := dispatch toLowerCase e2 (FormSubmit pinTitle pinDescription) st1 in
  let made :=
    {| data := {| id := generateUniqueId e1; lat := lat0; lng := lng0;
                  title := trim pinTitle; description := trim pinDescription;
                  createdAt := new_Date e1; updatedAt := Some (new_Date e2) |};
       marker := markersMade st |} in
  Map_get (generateUniqueId e1) (pins st2) = Some made /\
  (forall k, k <> generateUniqueId e1 ->
             Map_get k (pins st2) = Map_get k (pins st)) /\
  In (renderRow made) (pinList st2) /\
  currentPinId st2 = None /\ commentModal st2 = false /\
  isEditing st2 = false /\
  layers st2 = layers st ++ [(markersMade st, generateUniqueId e1)] /\
  (setItem_ok e2 (storedArray st2) = true ->
   localStorage st2 = PinArray (map EPin (storedArray st2))).
Proof.
  intros Ht Hl Hd st1 st2 made.
  assert (pins st1
          = Map_set (generateUniqueId e1)
              (newDraft e1 lat0 lng0 (markersMade st)) (pins st)) as Hp1
    by (subst st1; cbn [dispatch]; apply pins_addPin).
  assert (current st1 = Some (generateUniqueId e1)) as Hc1
    by (subst st1; cbn [dispatch]; apply current_addPin_new).
  assert (Map_get (generateUniqueId e1) (pins st1)
          = Some (newDraft e1 lat0 lng0 (markersMade st))) as Hg1
    by (rewrite Hp1; apply Map_get_set_eq).
  assert (truthy (trim pinTitle) = true) as Htr
    by (destruct (trim pinTitle); [congruence|reflexivity]).
  assert (layers st1 = layers st ++ [(markersMade st, generateUniqueId e1)])
    as Hl1
    by (subst st1; cbn [dispatch]; unfold addPin, L_marker_addTo; cbv zeta;
        through layers; reflexivity).
  set (formData := {| form_title := trim pinTitle;
                      form_description := trim pinDescription |}).
  assert (st2 = savePin e2 formData st1) as E2
    by (subst st2; now apply submit_valid).
  rewrite (savePin_eq e2 formData st1 _ _ Hc1 Hg1 Htr) in E2.
  assert (pins st2 = Map_set (generateUniqueId e1) made (pins st1)) as Hp2
    by (rewrite E2; through pins; reflexivity).
  split; [|split; [|split; [|split; [|split; [|split; [|split]]]]]].
  - rewrite Hp2. apply Map_get_set_eq.
  - intros k Hk. rewrite Hp2, Hp1.
    rewrite !Map_get_set_ne by congruence. reflexivity.
  - assert (pinList st2 = map renderRow (pinsArray st2)) as Hrows.
    { rewrite E2. through pinList. cbn [pinList set_pinList].
      unfold pinsArray. through pins. reflexivity. }
    rewrite Hrows. apply in_map. apply In_pinsArray. split; [|exact Htr].
    unfold Map_values. rewrite Hp2.
    change made with (snd (generateUniqueId e1, made)). apply in_map.
    apply Map_get_In. apply Map_get_set_eq.
  - rewrite E2. reflexivity.
  - rewrite E2. reflexivity.
  - rewrite E2. reflexivity.
  - rewrite E2. across layers. exact Hl1.
  - intros Hok.
    set (saved := set_pins _ st1) in E2.
    assert (storedArray st2 = storedArray saved) as Hs
      by (unfold storedArray; now rewrite Hp2).
    rewrite Hs in *. rewrite E2. through localStorage.
    rewrite localStorage_savePinsToStorage. now rewrite Hok.
Qed.

Lemma click_then_submit_makes_the_pin_witness :
  Map_get draftId
    (pins (dispatch asciiLower (env 1700000000900 [] true)
             (FormSubmit (str "  Cafe ") [])
             (dispatch asciiLower (env 1700000000000 (str "k3j9x0q1z") true)
                (MapClick 35 139) (new_MapApp (env 0 [] true) NoItem))))
  = Some {| data := cafe; marker := 0 |}.
Proof.
  assert (trim (str "  Cafe ") <> []) as H1 by (vm_compute; discriminate).
  assert (length (trim (str "  Cafe ")) <= 50)%nat as H2
    by (vm_compute; lia).
  assert (length (trim []) <= 200)%nat as H3 by (vm_compute; lia).
  exact (proj1 (click_then_submit_makes_the_pin asciiLower
                  (env 1700000000000 (str "k3j9x0q1z") true)
                  (env 1700000000900 [] true) 35 139 (str "  Cafe ") []
                  (new_MapApp (env 0 [] true) NoItem) H1 H2 H3)).
Defined.

(** ** Cancelling a new pin *)

Lemma Map_delete_fresh {V : Type} k (v : V) m :
  Map_get k m = None -> Map_delete k (m ++ [(k, v)]) = m.
Proof.
  intros H. unfold Map_delete. rewrite filter_app. cbn [filter fst].
  destruct (string_dec k k) as [_|N]; [|congruence]. cbn [negb].
  rewrite app_nil_r. induction m as [|[k' v'] m IH]; [reflexivity|].
  cbn [Map_get] in H. cbn [filter fst].
  destruct (string_dec k' k) as [E|N]; [discriminate|]. cbn [negb].
  now rewrite IH.
Qed.

Lemma deletePin_approved e pinId st pinData :
  Map_get pinId (pins st) = Some pinData -> confirm e = true ->
  deletePin e pinId st =
  showNotification PinDeleted
    (hidePinInfoModal
       (updatePinCount
          (updateSidebar
             (savePinsToStorage e
                (set_pins (Map_delete pinId (pins st))
                   (removeLayer (marker pinData) st)))))).
Proof. intros Hget Hc. unfold deletePin. now rewrite Hget, Hc. Qed.

Lemma hideCommentModal_draft e st cur pinData :
  isEditing st = false -> current st = Some cur ->
  Map_get cur (pins st) = Some pinData -> confirmed pinData = false ->
  hideCommentModal e st =
  set_isEditing false
    (set_currentPinId None (deletePin e cur (set_commentModal false st))).
Proof.
  intros Hed Hcur Hget Hc. unfold hideCommentModal. cbv zeta.
  change (isEditing (set_commentModal false st)) with (isEditing st).
  change (current (set_commentModal false st)) with (current st).
  change (pins (set_commentModal false st)) with (pins st).
  unfold confirmed in Hc. now rewrite Hed, Hcur, Hget, Hc.
Qed.

Lemma filter_layers_below (l : list (nat * jsstring)) n k :
  Forall (fun x => (fst x < n)%nat) l ->
  filter (fun x => negb (Nat.eqb (fst x) n)) (l ++ [(n, k)]) = l.
Proof.
  intros H. rewrite filter_app. cbn [filter fst].
  rewrite Nat.eqb_refl. cbn [negb]. rewrite app_nil_r.
  induction H as [|x l Hx _ IH]; [reflexivity|]. cbn [filter].
  destruct (Nat.eqb_spec (fst x) n); [lia|]. cbn [negb]. now rewrite IH.
Qed.

Lemma length_pinsArray st :
  length (pinsArray st) = length (filter confirmed (Map_values (pins st))).
Proof. apply Permutation_length, Array_sort_perm. Qed.

(** A click on the map whose identifier is new, then Cancel: the form
    closes and [deletePin] asks about the draft.  Approved, the store and
    the markers on the map are what they were before the click, the
    sidebar and the counter are recomputed from that store, and the
    storage, when it accepts the write, holds it.  Declined, the draft
    stays in the store, with its marker on the map, and the storage is
    not written (lines 25, 34-57, 373, 104-117, 164-177). *)
Theorem click_then_cancel_asks_about_the_draft
    (toLowerCase : jsstring -> jsstring) (e1 e2 : Env) (lat0 lng0 : Q)
    (st : App) :
  reachable toLowerCase st ->
  Map_get (generateUniqueId e1) (pins st) = None ->
  let st1 := dispatch toLowerCase e1 (MapClick lat0 lng0) st in
  let st2 := dispatch toLowerCase e2 CancelClick st1 in
  commentModal st1 = true /\ commentModal st2 = false /\
  currentPinId st2 = None /\
  (confirm e2 = true ->
   pins st2 = pins st /\ layers st2 = layers st /\
   pinList st2 = map renderRow (pinsArray st) /\
   pinCount st2 = length (pinsArray st) /\
   (setItem_ok e2 (storedArray st) = true ->
    localStorage st2 = PinArray (map EPin (storedArray st)))) /\
  (confirm e2 = false ->
   pins st2
   = pins st ++ [(generateUniqueId e1,
                  newDraft e1 lat0 lng0 (markersMade st))] /\
   layers st2 = layers st ++ [(markersMade st, generateUniqueId e1)] /\
   pinList st2 = pinList st /\ pinCount st2 = pinCount st /\
   localStorage st2 = localStorage st /\
   notifications st2 = notifications st).
Proof.
  intros Hr Hfresh st1 st2.
  destruct (reachable_markersTracked _ _ Hr) as [Hlt _].
  set (draft := newDraft e1 lat0 lng0 (markersMade st)).
  assert (pins st1 = pins st ++ [(generateUniqueId e1, draft)]) as Hp1.
  { subst st1. cbn [dispatch]. rewrite pins_addPin.
    now apply Map_set_fresh. }
  assert (current st1 = Some (generateUniqueId e1)) as Hc1
    by (subst st1; cbn [dispatch]; apply current_addPin_new).
  assert (isEditing st1 = false) as He1
    by (subst st1; cbn [dispatch]; apply isEditing_addPin_new).
  assert (Map_get (generateUniqueId e1) (pins st1) = Some draft) as Hg1.
  { subst st1. cbn [dispatch]. rewrite pins_addPin. apply Map_get_set_eq. }
  assert (layers st1 = layers st ++ [(markersMade st, generateUniqueId e1)])
    as Hl1
    by (subst st1; cbn [dispatch]; unfold addPin, L_marker_addTo; cbv zeta;
        through layers; reflexivity).
  assert (st2 = set_isEditing false
                  (set_currentPinId None
                     (deletePin e2 (generateUniqueId e1)
                        (set_commentModal false st1)))) as E2
    by (subst st2; cbn [dispatch];
        now apply (hideCommentModal_draft e2 st1 _ draft)).
  split; [|split; [|split; [|split]]].
  - subst st1. cbn [dispatch]. unfold addPin, L_marker_addTo. cbv zeta.
    reflexivity.
  - rewrite E2.
    change (commentModal (set_isEditing ?v ?s)) with (commentModal s).
    change (commentModal (set_currentPinId ?v ?s)) with (commentModal s).
    now rewrite (deletePin_keeps commentModal) by reflexivity.
  - rewrite E2. reflexivity.
  - intros Hc.
    rewrite (deletePin_approved e2 _ (set_commentModal false st1) draft
               Hg1 Hc) in E2.
    change (pins (set_commentModal false st1)) with (pins st1) in E2.
    assert (Map_delete (generateUniqueId e1) (pins st1) = pins st) as Hd
      by (rewrite Hp1; now apply Map_delete_fresh).
    rewrite Hd in E2.
    set (cleared := set_pins (pins st) _) in E2.
    assert (pinsArray cleared = pinsArray st) as Ha by reflexivity.
    assert (storedArray cleared = storedArray st) as Hs by reflexivity.
    split; [|split; [|split; [|split]]].
    + rewrite E2. through pins. reflexivity.
    + rewrite E2. across layers. subst cleared.
      cbn [layers set_pins removeLayer set_layers set_commentModal].
      rewrite Hl1. now apply filter_layers_below.
    + rewrite E2. through pinList. cbn [pinList set_pinList].
      unfold pinsArray. through pins. reflexivity.
    + rewrite E2. through pinCount. unfold updatePinCount.
      cbn [pinCount set_pinCount]. through pins.
      change (pins cleared) with (pins st).
      symmetry. apply length_pinsArray.
    + intros Hok. rewrite E2. through localStorage.
      rewrite localStorage_savePinsToStorage. now rewrite Hs, Hok.
  - intros Hc.
    assert (deletePin e2 (generateUniqueId e1) (set_commentModal false st1)
            = set_commentModal false st1) as Ed
      by (unfold deletePin;
          change (pins (set_commentModal false st1)) with (pins st1);
          now rewrite Hg1, Hc).
    rewrite Ed in E2. rewrite E2.
    split; [exact Hp1|split; [exact Hl1|]].
    subst st1. cbn [dispatch]. unfold addPin, L_marker_addTo. cbv zeta.
    repeat split.
Qed.

Lemma click_then_cancel_asks_about_the_draft_witness :
  reachable asciiLower (new_MapApp (env 0 [] true) (PinArray [EPin cafe])) /\
  pins (dispatch asciiLower (env 1700000002000 [] true) CancelClick
          (dispatch asciiLower (env 1700000001000 (str "7hq2m5c8d") true)
             (MapClick 36 140)
             (new_MapApp (env 0 [] true) (PinArray [EPin cafe]))))
  = pins (new_MapApp (env 0 [] true) (PinArray [EPin cafe])).
Proof.
  assert (reachable asciiLower
            (new_MapApp (env 0 [] true) (PinArray [EPin cafe]))) as H1
    by apply reachable_new.
  assert (Map_get (generateUniqueId (env 1700000001000 (str "7hq2m5c8d") true))
            (pins (new_MapApp (env 0 [] true) (PinArray [EPin cafe])))
          = None) as H2 by (vm_compute; reflexivity).
  destruct (click_then_cancel_asks_about_the_draft asciiLower
              (env 1700000001000 (str "7hq2m5c8d") true)
              (env 1700000002000 [] true) 36 140 _ H1 H2)
    as [_ [_ [_ [K _]]]].
  exact (conj H1 (proj1 (K eq_refl))).
Defined.

(** ** Deleting *)

Lemma handlerPinId_filter (f : nat * jsstring -> bool) m l :
  (forall k, f (m, k) = false) -> handlerPinId m (filter f l) = None.
Proof.
  intros Hf. induction l as [|[m' k] l IH]; [reflexivity|]. cbn [filter].
  destruct (f (m', k)) eqn:E; [|exact IH]. cbn [handlerPinId].
  destruct (Nat.eqb_spec m' m) as [->|_]; [|exact IH].
  rewrite Hf in E. discriminate.
Qed.




(** [clearAllPins] on an empty store only shows a message; on a store
    with pins it asks, and declined it changes nothing.  Approved, it
    empties the store, the sidebar and the counter, takes the marker of
    every pin off the map and writes the empty array to the storage when
    the storage accepts it.  Unlike [deletePin] it keeps [currentPinId]
    and leaves both modals as they are (lines 179-195). *)
Theorem clearAllPins_cases (e : Env) (st : App) :
  (pins st = [] -> clearAllPins e st = showNotification NothingToDelete st) /\
  (pins st <> [] -> confirm e = false -> clearAllPins e st = st) /\
  (pins st <> [] -> confirm e = true ->
   pins (clearAllPins e st) = [] /\
   pinList (clearAllPins e st) = [] /\
   pinCount (clearAllPins e st) = 0%nat /\
   (forall k pin, Map_get k (pins st) = Some pin ->
                  handlerPinId (marker pin) (layers (clearAllPins e st))
                  = None) /\
   (setItem_ok e [] = true ->
    localStorage (clearAllPins e st) = PinArray []) /\
   notifications (clearAllPins e st)
   = AllPinsDeleted
       :: (if setItem_ok e [] then notifications st
           else SaveFailed :: notifications st) /\
   currentPinId (clearAllPins e st) = currentPinId st /\
   commentModal (clearAllPins e st) = commentModal st /\
   pinInfoModal (clearAllPins e st) = pinInfoModal st).
Proof.
  split; [|split].
  - intros H. unfold clearAllPins. now rewrite H.
  - intros H Hc. unfold clearAllPins. rewrite Hc.
    destruct (pins st); [congruence|reflexivity].
  - intros H Hc.
    assert (clearAllPins e st
            = showNotification AllPinsDeleted
                (updatePinCount
                   (updateSidebar
                      (savePinsToStorage e
                         (set_pins []
                            (fold_left
                               (fun st pinData =>
                                  removeLayer (marker pinData) st)
                               (Map_values (pins st)) st)))))) as E.
    { unfold clearAllPins. rewrite Hc.
      destruct (pins st); [congruence|reflexivity]. }
    rewrite E. set (cleared := set_pins [] _).
    split; [|split; [|split; [|split; [|split; [|split; [|split; [|split]]]]]]].
    + through pins. reflexivity.
    + through pinList. cbn [pinList set_pinList]. unfold pinsArray.
      through pins. reflexivity.
    + through pinCount. unfold updatePinCount. cbn [pinCount set_pinCount].
      through pins. reflexivity.
    + intros k pin Hget. across layers. subst cleared. cbn [layers set_pins].
      rewrite layers_removeLayers. apply handlerPinId_filter.
      intros k'. cbn [fst]. apply negb_false_iff, existsb_exists.
      exists (marker pin). split; [|apply Nat.eqb_refl].
      apply in_map. change pin with (snd (k, pin)). apply in_map.
      now apply Map_get_In.
    + intros Hok. through localStorage.
      rewrite localStorage_savePinsToStorage.
      change (storedArray cleared) with (@nil PinData). now rewrite Hok.
    + cbn [notifications showNotification]. f_equal.
      through notifications. rewrite notifications_savePinsToStorage.
      change (storedArray cleared) with (@nil PinData).
      destruct (setItem_ok e []); [|f_equal];
        subst cleared; through notifications;
        now apply removeLayers_keep.
    + across currentPinId. subst cleared. through currentPinId.
      now apply removeLayers_keep.
    + across commentModal. subst cleared. through commentModal.
      now apply removeLayers_keep.
    + across pinInfoModal. subst cleared. through pinInfoModal.
      now apply removeLayers_keep.
Qed.

Lemma clearAllPins_cases_witness :
  pins cafeInfoOpen <> [] /\
  pins (clearAllPins (env 0 [] true) cafeInfoOpen) = [] /\
  currentPinId (clearAllPins (env 0 [] true) cafeInfoOpen) = Some (id cafe).
Proof.
  assert (pins cafeInfoOpen <> []) as H1 by (vm_compute; discriminate).
  destruct (clearAllPins_cases (env 0 [] true) cafeInfoOpen) as [_ [_ K]].
  destruct (K H1 eq_refl) as [K1 [_ [_ [_ [_ [_ [K2 _]]]]]]].
  exact (conj H1 (conj K1 K2)).
Defined.

(** ** A storage that refuses the write *)

(** When [setItem] throws at line 219, [savePin] still overwrites the pin
    in the store and lists it in the sidebar, the storage keeps what it
    held, and two messages are shown: the failure of the write, then the
    success of the save (lines 141-162, 207-224). *)
Theorem savePin_reports_success_after_failed_write
    (e : Env) (formData : FormData) (st : App)
    (cur : jsstring) (pinData : Pin) :
  current st = Some cur ->
  Map_get cur (pins st) = Some pinData ->
  truthy (form_title formData) = true ->
  setItem_ok e (storedArray (savePin e formData st)) = false ->
  pins (savePin e formData st)
  = Map_set cur (updatedData e formData pinData) (pins st) /\
  In (renderRow (updatedData e formData pinData))
     (pinList (savePin e formData st)) /\
  localStorage (savePin e formData st) = localStorage st /\
  notifications (savePin e formData st)
  = PinSaved :: SaveFailed :: notifications st.
Proof.
  intros Hcur Hget Ht Hfull.
  pose proof (pins_savePin e formData st cur pinData Hcur Hget Ht) as Hp.
  unfold storedArray in Hfull. rewrite Hp in Hfull.
  rewrite (savePin_eq e formData st cur pinData Hcur Hget Ht) in *.
  set (saved := set_pins _ st) in *.
  change (setItem_ok e (storedArray saved) = false) in Hfull.
  split; [exact Hp|split; [|split]].
  - through pinList. cbn [pinList set_pinList]. apply in_map.
    apply In_pinsArray. split; [|exact Ht]. through pins.
    subst saved. cbn [pins set_pins]. unfold Map_values.
    change (updatedData e formData pinData)
      with (snd (cur, updatedData e formData pinData)).
    apply in_map, Map_get_In, Map_get_set_eq.
  - through localStorage. rewrite localStorage_savePinsToStorage.
    now rewrite Hfull.
  - cbn [notifications showNotification]. f_equal.
    through notifications. rewrite notifications_savePinsToStorage.
    now rewrite Hfull.
Qed.

Lemma savePin_reports_success_after_failed_write_witness :
  current draftOpen = Some draftId /\
  notifications (savePin (envFull 1700000000900 true) cafeForm draftOpen)
  = [PinSaved; SaveFailed].
Proof.
  assert (current draftOpen = Some draftId) as H1 by (vm_compute; reflexivity).
  assert (Map_get draftId (pins draftOpen) = Some draftPin) as H2
    by (vm_compute; reflexivity).
  assert (truthy (form_title cafeForm) = true) as H3
    by (vm_compute; reflexivity).
  destruct (savePin_reports_success_after_failed_write
              (envFull 1700000000900 true) cafeForm draftOpen _ _
              H1 H2 H3 eq_refl) as [_ [_ [_ K]]].
  exact (conj H1 K).
Defined.

(** ** The edit button, on an example *)

Lemma editPin_then_submit_changes_nothing_witness :
  current cafeInfoOpen = Some (id cafe) /\
  current (editPin cafeInfoOpen) = None /\
  pins (dispatch asciiLower (env 1700000200000 [] true)
          (FormSubmit (str "Bar") []) (editPin cafeInfoOpen))
  = pins cafeInfoOpen.
Proof.
  assert (current cafeInfoOpen = Some (id cafe)) as H1
    by (vm_compute; reflexivity).
  assert (Map_get (id cafe) (pins cafeInfoOpen)
          = Some {| data := cafe; marker := 0 |}) as H2
    by (vm_compute; reflexivity).
  destruct (editPin_then_submit_changes_nothing asciiLower
              (env 1700000200000 [] true) cafeInfoOpen (str "Bar") [])
    as [K1 [K2 _]].
  destruct (K1 _ _ H1 H2) as [_ [_ K3]].
  exact (conj H1 (conj K3 K2)).
Defined.

(** ** The sidebar follows the store *)

Lemma sidebarSynced_updateSidebar st : sidebarSynced (updateSidebar st).
Proof.
  unfold sidebarSynced. rewrite updateSidebar_rows.
  cbn [pinList set_pinList].
  change (pinsArray (set_pinList ?v ?s)) with (pinsArray s).
  rewrite map_map. apply map_ext. reflexivity.
Qed.

Lemma sidebarSynced_deletePin e pinId st :
  sidebarSynced st -> sidebarSynced (deletePin e pinId st).
Proof.
  intros H. unfold deletePin.
  destruct (Map_get pinId (pins st)); [|exact H].
  destruct (confirm e); [|exact H]. cbv zeta.
  change (sidebarSynced (showNotification ?n ?s)) with (sidebarSynced s).
  change (sidebarSynced (hidePinInfoModal ?s)) with (sidebarSynced s).
  change (sidebarSynced (updatePinCount ?s)) with (sidebarSynced s).
  apply sidebarSynced_updateSidebar.
Qed.

Lemma sidebarSynced_hideCommentModal e st :
  sidebarSynced st -> sidebarSynced (hideCommentModal e st).
Proof.
  intros H. unfold hideCommentModal. cbv zeta.
  change (sidebarSynced (set_isEditing false ?s)) with (sidebarSynced s).
  change (sidebarSynced (set_currentPinId None ?s)) with (sidebarSynced s).
  destruct (isEditing _); [exact H|].
  destruct (current _) as [cur|]; [|exact H].
  destruct (Map_get cur _) as [pinData|]; [|exact H].
  destruct (truthy _); [exact H|].
  apply sidebarSynced_deletePin. exact H.
Qed.

Lemma sidebarSynced_savePin e formData st :
  sidebarSynced st -> sidebarSynced (savePin e formData st).
Proof.
  intros H. unfold savePin.
  destruct (current st) as [cur|]; [|exact H].
  destruct (Map_get cur (pins st)) as [pinData|]; [|exact H].
  cbv zeta.
  change (sidebarSynced (showNotification ?n ?s)) with (sidebarSynced s).
  apply sidebarSynced_hideCommentModal, sidebarSynced_updateSidebar.
Qed.

Lemma sidebarSynced_clearAllPins e st :
  sidebarSynced st -> sidebarSynced (clearAllPins e st).
Proof.
  intros H. unfold clearAllPins.
  destruct (Map_size (pins st) =? 0)%nat; [exact H|].
  destruct (confirm e); [|exact H]. cbv zeta.
  change (sidebarSynced (showNotification ?n ?s)) with (sidebarSynced s).
  change (sidebarSynced (updatePinCount ?s)) with (sidebarSynced s).
  apply sidebarSynced_updateSidebar.
Qed.

Lemma sidebarSynced_searchPins toLowerCase value st :
  sidebarSynced st -> sidebarSynced (searchPins toLowerCase value st).
Proof.
  unfold sidebarSynced, searchPins. cbv zeta. intros H.
  cbn [pinList set_pinList].
  change (pinsArray (set_pinList ?v ?s)) with (pinsArray s).
  rewrite <- H.
  destruct (string_dec _ _); rewrite ?map_map; apply map_ext; reflexivity.
Qed.

Lemma sidebarSynced_addPin_new e lat0 lng0 st :
  Map_get (generateUniqueId e) (pins st) = None ->
  sidebarSynced st -> sidebarSynced (addPin e lat0 lng0 None st).
Proof.
  intros Hfresh H. unfold sidebarSynced in *.
  assert (pinList (addPin e lat0 lng0 None st) = pinList st) as Hl
    by (unfold addPin, L_marker_addTo; cbv zeta; through pinList;
        reflexivity).
  rewrite Hl, H. f_equal. unfold pinsArray. f_equal.
  rewrite pins_addPin, Map_set_fresh by exact Hfresh.
  unfold Map_values. rewrite map_app, filter_app. cbn.
  now rewrite app_nil_r.
Qed.

Lemma sidebarSynced_load e ds st :
  sidebarSynced st -> sidebarSynced (fold_left (addStored e) ds st).
Proof.
  revert st. induction ds as [|d ds IH]; intros st H; cbn [fold_left];
    [exact H|].
  apply IH. unfold addStored, addPin, L_marker_addTo. cbv zeta.
  change (sidebarSynced (updatePinCount ?s)) with (sidebarSynced s).
  apply sidebarSynced_updateSidebar.
Qed.

Lemma sidebarSynced_new e slot : sidebarSynced (new_MapApp e slot).
Proof.
  assert (sidebarSynced (constructed slot)) as H0 by reflexivity.
  unfold new_MapApp, init, loadPinsFromStorage.
  change (sidebarSynced (updatePinCount ?s)) with (sidebarSynced s).
  destruct slot as [| | | |l]; cbn [localStorage constructed]; try exact H0.
  destruct (existsb isNull l) eqn:E;
    [rewrite forEach_addPin_Throw by exact E
    |rewrite forEach_addPin_Normal by exact E];
    now apply sidebarSynced_load.
Qed.

Lemma sidebarSynced_dispatch toLowerCase e ev st :
  (forall lat0 lng0, ev = MapClick lat0 lng0 ->
                     Map_get (generateUniqueId e) (pins st) = None) ->
  sidebarSynced st -> sidebarSynced (dispatch toLowerCase e ev st).
Proof.
  intros Hfresh H.
  destruct ev as [lat0 lng0|m|m|pinTitle pinDescription| | |value
                 | | | |modal| |modal]; cbn [dispatch].
  - apply sidebarSynced_addPin_new; [|exact H]. now apply (Hfresh lat0 lng0).
  - destruct (handlerPinId m (layers st)) as [pinId|]; [|exact H].
    destruct (Map_get pinId (pins st)) as [pinData|]; [|exact H].
    destruct (truthy _); exact H.
  - destruct (handlerPinId m (layers st)) as [pinId|]; [|exact H].
    now apply sidebarSynced_deletePin.
  - cbv zeta.
    destruct (validateInput _ st) as [valid st'] eqn:Hv.
    assert (sidebarSynced st') as H'.
    { unfold validateInput in Hv.
      repeat match type of Hv with
             | (if ?c then _ else _) = _ => destruct c
             end; inversion Hv; subst; exact H. }
    destruct valid; [now apply sidebarSynced_savePin|exact H'].
  - now apply sidebarSynced_hideCommentModal.
  - now apply sidebarSynced_clearAllPins.
  - now apply sidebarSynced_searchPins.
  - unfold editPin. destruct (current st) as [cur|]; [|exact H].
    destruct (Map_get cur (pins st)); exact H.
  - destruct (current st) as [cur|]; [|exact H].
    now apply sidebarSynced_deletePin.
  - exact H.
  - destruct modal; [now apply sidebarSynced_hideCommentModal|exact H].
  - destruct (commentModal st); [now apply sidebarSynced_hideCommentModal|].
    destruct (pinInfoModal st); exact H.
  - destruct modal; [now apply sidebarSynced_hideCommentModal|exact H].
Qed.

Lemma reachableFresh_sidebarSynced toLowerCase st :
  reachableFresh toLowerCase st -> sidebarSynced st.
Proof.
  induction 1 as [e slot|e ev st _ IH Hfresh].
  - apply sidebarSynced_new.
  - now apply sidebarSynced_dispatch.
Qed.

(** As long as no click on the map generates an identifier that the
    store already holds, the sidebar lists the confirmed pins of the
    store and nothing else, whatever the events were: it has one row for
    each confirmed pin, in the order of [pinsArray], with the pin's
    identifier, title and rendered description; a search only hides rows.
    Drafts have no row (lines 241-271, 273-293, and every handler). *)
Theorem sidebar_lists_the_confirmed_pins
    (toLowerCase : jsstring -> jsstring) (st : App) :
  reachableFresh toLowerCase st ->
  map (set_display true) (pinList st) = map renderRow (pinsArray st) /\
  length (pinList st) = length (filter confirmed (Map_values (pins st))) /\
  (forall pin,
     In pin (Map_values (pins st)) -> confirmed pin = true ->
     exists row,
       In row (pinList st) /\ row_pinId row = id (data pin) /\
       row_h4 row = title (data pin) /\
       row_p row = renderDescription (description (data pin))) /\
  (forall row,
     In row (pinList st) ->
     exists pin,
       In pin (Map_values (pins st)) /\ confirmed pin = true /\
       row_pinId row = id (data pin)).
Proof.
  intros Hr. pose proof (reachableFresh_sidebarSynced _ _ Hr) as H.
  unfold sidebarSynced in H. split; [exact H|split; [|split]].
  - rewrite <- length_pinsArray.
    rewrite <- (length_map renderRow), <- H. now rewrite length_map.
  - intros pin Hin Hc.
    assert (In (renderRow pin) (map (set_display true) (pinList st))) as Hrow
      by (rewrite H; apply in_map; now apply In_pinsArray).
    apply in_map_iff in Hrow as [row [E Hrow]].
    exists row. split; [exact Hrow|].
    destruct row as [i h p d]. unfold set_display, renderRow in E.
    cbn in E. inversion E. subst. now repeat split.
  - intros row Hrow.
    assert (In (set_display true row) (map renderRow (pinsArray st))) as Hpin
      by (rewrite <- H; now apply in_map).
    apply in_map_iff in Hpin as [pin [E Hpin]].
    apply In_pinsArray in Hpin as [Hin Hc].
    exists pin. split; [exact Hin|split; [exact Hc|]].
    destruct row as [i h p d]. unfold set_display, renderRow in E.
    cbn in E. inversion E. reflexivity.
Qed.

Lemma sidebar_lists_the_confirmed_pins_witness :
  reachableFresh asciiLower
    (run asciiLower placeCafe (new_MapApp (env 0 [] true) NoItem)) /\
  length
    (pinList (run asciiLower placeCafe (new_MapApp (env 0 [] true) NoItem)))
  = 1%nat.
Proof.
  assert (reachableFresh asciiLower
            (run asciiLower placeCafe (new_MapApp (env 0 [] true) NoItem)))
    as H1.
  { unfold run, placeCafe. cbn [fold_left fst snd].
    apply fresh_dispatch; [apply fresh_dispatch; [apply fresh_new|]|].
    - intros lat0 lng0 _. vm_compute. reflexivity.
    - intros lat0 lng0 E. discriminate E. }
  exact (conj H1
           (proj1 (proj2 (sidebar_lists_the_confirmed_pins asciiLower _ H1)))).
Defined.

(** ** Search in a running application *)

Lemma forallb_plainRow_shown (rows : list Row) :
  forallb plainRow (map (set_display true) rows) = forallb plainRow rows.
Proof.
  induction rows as [|row rows IH]; [reflexivity|]. cbn [map forallb].
  now rewrite IH.
Qed.

Lemma searchPins_rows toLowerCase value (rows : list Row) (l : list Pin) st :
  pinList st = rows ->
  map (set_display true) rows = map renderRow l ->
  map row_pinId
    (filter row_display (pinList (searchPins toLowerCase value st)))
  = map (fun pin => id (data pin)) (filter (searchHit toLowerCase value) l).
Proof.
  intros Hl H. unfold searchPins. cbv zeta. cbn [pinList set_pinList].
  rewrite Hl. clear Hl.
  revert l H. induction rows as [|row rows IH]; intros [|pin l] H;
    try discriminate H.
  - now destruct (string_dec _ _).
  - cbn [map] in H. injection H as Ei Eh Ep Hrows. specialize (IH l Hrows).
    destruct (string_dec (trim (toLowerCase value)) []) as [E|E].
    + cbn [map filter set_display row_display row_pinId].
      rewrite (searchHit_empty _ _ pin E). cbn [map]. now rewrite Ei, IH.
    + cbn [map filter set_display row_display row_pinId].
      unfold searchHit at 1. rewrite Eh, Ep.
      destruct (includes _ _ || includes _ _); cbn [map];
        [change (row_pinId (set_display true row)) with (row_pinId row);
         rewrite Ei; f_equal|]; exact IH.
Qed.

(** As long as no click on the map generates an identifier that the
    store already holds, and the confirmed pins of the store have no
    markup in their identifier, title and description: in every state of
    a running application the rows of the sidebar have no markup, and
    [searchPins] shows exactly the rows of the confirmed pins for which
    [searchHit] holds, in the order of the list, whatever was confirmed,
    deleted or searched before; it shows all of them for a text that is
    empty once trimmed.  It writes neither the store, nor the storage,
    nor the counter (lines 273-293, 241-271, and every handler). *)
Theorem searchPins_shows_hits_in_every_state
    (toLowerCase : jsstring -> jsstring) (value : jsstring) (st : App) :
  reachableFresh toLowerCase st ->
  sidebarPlain st = true ->
  forallb plainRow (pinList st) = true /\
  map row_pinId
    (filter row_display (pinList (searchPins toLowerCase value st)))
  = map (fun pin => id (data pin))
      (filter (searchHit toLowerCase value) (pinsArray st)) /\
  (trim (toLowerCase value) = [] ->
   map row_pinId
     (filter row_display (pinList (searchPins toLowerCase value st)))
   = map (fun pin => id (data pin)) (pinsArray st)) /\
  pins (searchPins toLowerCase value st) = pins st /\
  localStorage (searchPins toLowerCase value st) = localStorage st /\
  pinCount (searchPins toLowerCase value st) = pinCount st.
Proof.
  intros Hr Hplain.
  pose proof (reachableFresh_sidebarSynced _ _ Hr) as Hs.
  unfold sidebarSynced in Hs.
  pose proof (searchPins_rows toLowerCase value _ _ st eq_refl Hs) as Hrows.
  split; [|split; [exact Hrows|split; [|now repeat split]]].
  - rewrite <- forallb_plainRow_shown, Hs. now apply plainRow_pinsArray.
  - intros E. rewrite Hrows. f_equal. clear -E.
    induction (pinsArray st) as [|pin l IH]; [reflexivity|].
    cbn [filter]. rewrite (searchHit_empty _ _ pin E). now rewrite IH.
Qed.

Lemma searchPins_shows_hits_in_every_state_witness :
  reachableFresh asciiLower
    (run asciiLower placeCafe (new_MapApp (env 0 [] true) NoItem)) /\
  sidebarPlain (run asciiLower placeCafe (new_MapApp (env 0 [] true) NoItem))
  = true /\
  map row_pinId
    (filter row_display
       (pinList
          (searchPins asciiLower (str " CAF ")
             (run asciiLower placeCafe (new_MapApp (env 0 [] true) NoItem)))))
  = [draftId].
Proof.
  assert (reachableFresh asciiLower
            (run asciiLower placeCafe (new_MapApp (env 0 [] true) NoItem)))
    as H1.
  { unfold run, placeCafe. cbn [fold_left fst snd].
    apply fresh_dispatch; [apply fresh_dispatch; [apply fresh_new|]|].
    - intros lat0 lng0 _. vm_compute. reflexivity.
    - intros lat0 lng0 E. discriminate E. }
  assert (sidebarPlain
            (run asciiLower placeCafe (new_MapApp (env 0 [] true) NoItem))
          = true) as H2 by (vm_compute; reflexivity).
  destruct (searchPins_shows_hits_in_every_state asciiLower (str " CAF ")
              _ H1 H2) as [_ [K _]].
  split; [exact H1|split; [exact H2|]]. rewrite K. vm_compute. reflexivity.
Defined.

(** ** The counter at start *)

(** When [new MapApp()] returns, for every slot of [Stored] (no item,
    empty text, text that is not JSON, JSON that is no array, an array of
    [null]s and pin objects with every field of its type), the counter
    shows the number of rows of the sidebar as [Row] reads them, which is
    the number of confirmed pins of the store (lines 11-16, 226-239,
    295-298). *)
Theorem counter_matches_sidebar_at_start (e : Env) (slot : Stored) :
  pinCount (new_MapApp e slot) = length (pinList (new_MapApp e slot)) /\
  pinCount (new_MapApp e slot)
  = length (filter confirmed (Map_values (pins (new_MapApp e slot)))).
Proof.
  assert (pinCount (new_MapApp e slot)
          = length (filter confirmed (Map_values (pins (new_MapApp e slot)))))
    as Hc by reflexivity.
  split; [|exact Hc]. rewrite Hc, <- length_pinsArray.
  pose proof (sidebarSynced_new e slot) as H. unfold sidebarSynced in H.
  rewrite <- (length_map renderRow), <- H. now rewrite length_map.
Qed.

(** ** The counter never overcounts *)







(** ** Starting reads only *)

Lemma load_keeps {A : Type} (field : App -> A) e ds st :
  (forall d s, field (addStored e s d) = field s) ->
  field (fold_left (addStored e) ds st) = field st.
Proof.
  intros H. revert st. induction ds as [|d ds IH]; intros st;
    cbn [fold_left]; [reflexivity|]. now rewrite IH, H.
Qed.

(** [new MapApp()] only reads the storage.  For every slot of [Stored]
    (no item, empty text, text that is not JSON, JSON that is no array, an
    array of [null]s and pin objects with every field of its type) the
    slot is left as it was, no pin is current and both modals are closed;
    for such an array, one marker is on the map for each object read
    before the first [null] (lines 2-16, 226-239, 34-43). *)
Theorem starting_leaves_the_storage (e : Env) (slot : Stored) :
  localStorage (new_MapApp e slot) = slot /\
  currentPinId (new_MapApp e slot) = None /\
  isEditing (new_MapApp e slot) = false /\
  commentModal (new_MapApp e slot) = false /\
  pinInfoModal (new_MapApp e slot) = false /\
  forall l, slot = PinArray l ->
            map snd (layers (new_MapApp e slot)) = map id (beforeNull l).
Proof.
  assert (forall {A} (field : App -> A),
            (forall d s, field (addStored e s d) = field s) ->
            (forall s, field (updatePinCount s) = field s) ->
            (forall n s, field (showNotification n s) = field s) ->
            field (new_MapApp e slot) = field (constructed slot)) as K.
  { intros A field H1 H2 H3. unfold new_MapApp, init, loadPinsFromStorage.
    rewrite H2.
    destruct slot as [| | | |l]; cbn [localStorage constructed];
      rewrite ?H3; try reflexivity.
    destruct (existsb isNull l) eqn:E;
      [rewrite forEach_addPin_Throw by exact E
      |rewrite forEach_addPin_Normal by exact E];
      rewrite ?H3; now apply load_keeps. }
  assert (forall {A} (field : App -> A),
            (forall v n s, field (set_layers v n s) = field s) ->
            (forall v s, field (set_pins v s) = field s) ->
            (forall v s, field (set_pinList v s) = field s) ->
            (forall v s, field (set_pinCount v s) = field s) ->
            forall d s, field (addStored e s d) = field s) as F.
  { intros A field H1 H2 H3 H4 d s.
    unfold addStored, addPin, L_marker_addTo, updatePinCount. cbv zeta.
    now rewrite H4, updateSidebar_rows, H3, H2, H1. }
  split; [|split; [|split; [|split; [|split]]]].
  - now rewrite (K _ localStorage) by (try apply F; reflexivity).
  - now rewrite (K _ currentPinId) by (try apply F; reflexivity).
  - now rewrite (K _ isEditing) by (try apply F; reflexivity).
  - now rewrite (K _ commentModal) by (try apply F; reflexivity).
  - now rewrite (K _ pinInfoModal) by (try apply F; reflexivity).
  - intros l ->. unfold new_MapApp, init, loadPinsFromStorage.
    change (layers (updatePinCount ?s)) with (layers s).
    cbn [localStorage constructed].
    assert (forall ds s,
              map snd (layers (fold_left (addStored e) ds s))
              = map snd (layers s) ++ map id ds) as L.
    { induction ds as [|d ds IH]; intros s; cbn [fold_left map].
      - now rewrite app_nil_r.
      - rewrite IH. unfold addStored, addPin, L_marker_addTo. cbv zeta.
        through layers. cbn [layers set_layers].
        rewrite map_app, <- app_assoc. reflexivity. }
    destruct (existsb isNull l) eqn:E;
      [rewrite forEach_addPin_Throw by exact E
      |rewrite forEach_addPin_Normal by exact E];
      through layers; now rewrite L.
Qed.
